(** * Magic-mirror streaming client: inbound frame buffer, display scheduler,
      reconnection policy, transcription cycle and outbound pipeline.

    The React component [WarpPage] exists in several revisions in the
    repository.  Two of them matter here:

    - the revision with password authentication, heartbeat and bounded
      reconnection (the one that declares [MAX_RECONNECT_ATTEMPTS]); it is
      embedded in the modules [Main], [Session], [Audio] and [Outbound];
    - the older revision [web/src/components/WarpPage.tsx] (first document
      of that file, also [src/components/WarpPage.tsx]), whose decode
      handler guards the push and whose stop handler trims the text; it is
      embedded in the modules [Web] and [WebAudio].

    The display loop [displayNextFrame]/[fade] has the same control flow in
    both revisions and is embedded once, in the section [Scheduler]. *)

From Stdlib Require Import ZArith NArith Lia QArith Qminmax.
From stdpp Require Import base list sets.

Local Open Scope nat_scope.

(** ** Constants of the component *)

Definition FRAME_INTERVAL : Z := 250.
Definition MAX_BUFFER_SIZE : nat := 16.
Definition DISPLAY_DURATION : Z := 0.
Definition SCROLL_DURATION : Z := 5.
Definition MAX_RECONNECT_ATTEMPTS : Z := 10.
Definition INITIAL_RECONNECT_DELAY : Z := 1000.
Definition MAX_RECONNECT_DELAY : Z := 30000.
Definition HEALTH_CHECK_INTERVAL : Z := 30000.
Definition MAX_NO_UPDATES_TIME : Z := 300000.
Definition PING_INTERVAL : Z := 10000.

(** ** Inbound frame queue and display scheduler *)

(** The two [<canvas>] elements the refs [currentCanvasRef] and
    [nextCanvasRef] point to. *)
Inductive Canvas := FirstCanvas | SecondCanvas.

Section Scheduler.

(** [Img] stands for [HTMLImageElement].  [Opacity] stands for the JS number
    held by the local [opacity] of a transition: [opacity_one] is [1],
    [opacity_step o] is [o - 0.05] and [opacity_pos o] is [o > 0], all in
    double arithmetic, which is left abstract. *)
Context {Img Opacity : Type}.
Variable opacity_one : Opacity.
Variable opacity_step : Opacity -> Opacity.
Variable opacity_pos : Opacity -> bool.

(** The refs the display loop and the decode handler share.  [fades] is the
    list of [fade] closures that are registered with
    [requestAnimationFrame] and have not run to completion; each closure
    owns its [opacity]. *)
Record Sched := mkSched {
  frameQueue : list Img;
  isTransitioning : bool;
  lastTransitionTime : Z;
  currentCanvas : option Canvas;
  nextCanvas : option Canvas;
  fades : list Opacity
}.

(** What a callback does to the page, in program order.  [SwapCanvases] is
    the exchange of the two refs and [PopFrame] the [slice(1)] of the
    queue; both are also visible in the state. *)
Inductive Effect :=
| SkipFrames (n : nat)
| ClearRect (c : Canvas)
| DrawImage (c : Canvas) (f : Img)
| BeginFade
| SetOpacity (c : Canvas) (o : Opacity)
| SwapCanvases
| SetZIndex (c : Canvas) (z : Z)
| ResetOpacity (c : Canvas)
| PopFrame.

(** [frameQueueRef.current.slice(framesToSkip)] with
    [framesToSkip = Math.floor(length / 2)], when the queue is longer than
    [MAX_BUFFER_SIZE / 2]; the constant is even, so the quotient is the
    integer 8. *)
Definition overflowSkip (q : list Img) : list Img :=
  if MAX_BUFFER_SIZE / 2 <? length q
  then drop (length q / 2) q
  else q.

Definition overflowSkipped (q : list Img) : list Effect :=
  if MAX_BUFFER_SIZE / 2 <? length q then [SkipFrames (length q / 2)] else [].

(** One run of [displayNextFrame].  [now] is [Date.now()] and [ctx] tells
    whether [nextCanvas.getContext('2d')] returned a context. *)
Definition displayNextFrame (now : Z) (ctx : bool) (s : Sched)
  : Sched * list Effect :=
  let timeSinceLastTransition := (now - lastTransitionTime s)%Z in
  if negb (isTransitioning s)
     && (0 <? length (frameQueue s))
     && (DISPLAY_DURATION <=? timeSinceLastTransition)%Z
  then
    let q := overflowSkip (frameQueue s) in
    let skipped := overflowSkipped (frameQueue s) in
    let s1 := mkSched q (isTransitioning s) (lastTransitionTime s)
                      (currentCanvas s) (nextCanvas s) (fades s) in
    match head q, nextCanvas s, ctx with
    | Some nextFrame, Some c, true =>
        (mkSched q true (lastTransitionTime s)
                 (currentCanvas s) (nextCanvas s) (fades s ++ [opacity_one]),
         skipped ++ [ClearRect c; DrawImage c nextFrame; BeginFade])
    | _, _, _ => (s1, skipped)
    end
  else (s, []).

Definition canvasEffects (c : option Canvas) (z : Z) : list Effect :=
  match c with
  | Some c => [SetZIndex c z; ResetOpacity c]
  | None => []
  end.

(** One run of the [i]-th registered [fade] closure; [now] is the
    [Date.now()] read when the transition completes.  A closure that is not
    registered does not run. *)
Definition fade (i : nat) (now : Z) (s : Sched) : Sched * list Effect :=
  match fades s !! i with
  | None => (s, [])
  | Some opacity =>
      match opacity_pos opacity, currentCanvas s with
      | true, Some c =>
          let opacity' := opacity_step opacity in
          (mkSched (frameQueue s) (isTransitioning s) (lastTransitionTime s)
                   (currentCanvas s) (nextCanvas s)
                   (<[i := opacity']> (fades s)),
           [SetOpacity c opacity'])
      | _, _ =>
          let temp := currentCanvas s in
          let current' := nextCanvas s in
          let next' := temp in
          (mkSched (drop 1 (frameQueue s)) false now current' next'
                   (delete i (fades s)),
           [SwapCanvases] ++ canvasEffects current' 2
             ++ canvasEffects next' 1 ++ [PopFrame])
      end
  end.

(** What can happen to the scheduler: an image finished decoding
    ([img.onload]), the display loop ran, or a [fade] closure ran. *)
Inductive Event :=
| Decoded (img : Img)
| Tick (now : Z) (ctx : bool)
| Fade (i : nat) (now : Z).

Section Run.

(** The body of [img.onload] as a function on the queue; it differs
    between the revisions. *)
Variable onload : list Img -> Img -> list Img.

Definition step (s : Sched) (e : Event) : Sched * list Effect :=
  match e with
  | Decoded img =>
      (mkSched (onload (frameQueue s) img) (isTransitioning s)
               (lastTransitionTime s) (currentCanvas s) (nextCanvas s)
               (fades s), [])
  | Tick now ctx => displayNextFrame now ctx s
  | Fade i now => fade i now s
  end.

Fixpoint run (s : Sched) (evs : list Event) : Sched * list Effect :=
  match evs with
  | [] => (s, [])
  | e :: evs' =>
      let '(s1, out1) := step s e in
      let '(s2, out2) := run s1 evs' in
      (s2, out1 ++ out2)
  end.

End Run.

(** The frames that were decoded, in arrival order, and the frames that
    were put on screen, in display order. *)
Definition arrivals (evs : list Event) : list Img :=
  omap (fun e => match e with Decoded img => Some img | _ => None end) evs.

Definition displayed (out : list Effect) : list Img :=
  omap (fun x => match x with DrawImage _ f => Some f | _ => None end) out.

(** The refs when the component mounts: empty queue, no transition. *)
Definition mount (t0 : Z) (cur next : option Canvas) : Sched :=
  mkSched [] false t0 cur next [].

(** The [fade] closures in flight agree with the flag: none when idle, one
    while a transition runs. *)
Definition in_step (s : Sched) : Prop :=
  length (fades s) = if isTransitioning s then 1 else 0.

(** The three ways a run of [displayNextFrame] can end. *)
Inductive tick_outcome (s : Sched) : Sched * list Effect -> Prop :=
| tick_idle :
    tick_outcome s (s, [])
| tick_skipped :
    isTransitioning s = false ->
    tick_outcome s
      (mkSched (overflowSkip (frameQueue s)) false (lastTransitionTime s)
               (currentCanvas s) (nextCanvas s) (fades s),
       overflowSkipped (frameQueue s))
| tick_begun c f :
    isTransitioning s = false ->
    head (overflowSkip (frameQueue s)) = Some f ->
    tick_outcome s
      (mkSched (overflowSkip (frameQueue s)) true (lastTransitionTime s)
               (currentCanvas s) (nextCanvas s) (fades s ++ [opacity_one]),
       overflowSkipped (frameQueue s)
         ++ [ClearRect c; DrawImage c f; BeginFade]).

(** The ways a run of the [i]-th [fade] closure can end. *)
Inductive fade_outcome (i : nat) (now : Z) (s : Sched)
  : Sched * list Effect -> Prop :=
| fade_absent :
    fades s !! i = None ->
    fade_outcome i now s (s, [])
| fade_stepped o c :
    fades s !! i = Some o ->
    fade_outcome i now s
      (mkSched (frameQueue s) (isTransitioning s) (lastTransitionTime s)
               (currentCanvas s) (nextCanvas s)
               (<[i := opacity_step o]> (fades s)),
       [SetOpacity c (opacity_step o)])
| fade_completed o :
    fades s !! i = Some o ->
    fade_outcome i now s
      (mkSched (drop 1 (frameQueue s)) false now (nextCanvas s)
               (currentCanvas s) (delete i (fades s)),
       [SwapCanvases] ++ canvasEffects (nextCanvas s) 2
         ++ canvasEffects (currentCanvas s) 1 ++ [PopFrame]).

End Scheduler.

Arguments Sched : clear implicits.
Arguments Effect : clear implicits.
Arguments Event : clear implicits.

(** A decimal reading of the opacity arithmetic, in hundredths, to run the
    scheduler on examples: [1], [o - 0.05] and [o > 0]. *)
Definition decimal_one : Z := 100.
Definition decimal_step (o : Z) : Z := (o - 5)%Z.
Definition decimal_pos (o : Z) : bool := (0 <? o)%Z.

(** The refs right after the first render: the canvas styled as the first
    one is current, the other one is next. *)
Definition mounted : Sched nat Z :=
  mount 0 (Some FirstCanvas) (Some SecondCanvas).

(** The revision with reconnection: [img.onload] pushes unconditionally. *)
Module Main.

Definition onload {Img : Type} (q : list Img) (img : Img) : list Img :=
  q ++ [img].

End Main.

(** The older revision: [img.onload] pushes only below [MAX_BUFFER_SIZE]. *)
Module Web.

Definition onload {Img : Type} (q : list Img) (img : Img) : list Img :=
  if length q <? MAX_BUFFER_SIZE then q ++ [img] else q.

End Web.

(** ** Session manager: reconnection with backoff *)

Module Session.

Inductive WsStatus := Connecting | Connected | Disconnected.

(** [reconnectAttemptsRef.current] and the [wsStatus] state. *)
Record Conn := mkConn {
  reconnectAttempts : nat;
  wsStatus : WsStatus
}.

Inductive Action :=
| SendAuth
| StartHealthCheck
| StartPing
| StartNoUpdatesTimeout
| ScheduleReconnect (delay : Z)
| ReloadPage.

(** [Math.min(INITIAL_RECONNECT_DELAY * Math.pow(2, attempts),
    MAX_RECONNECT_DELAY)].  The product is an integer that a double holds
    exactly as long as it is finite, and an infinite product is cut to
    [MAX_RECONNECT_DELAY] by the minimum, so the value is the one computed
    over [Z]. *)
Definition reconnectDelay (attempts : nat) : Z :=
  Z.min (INITIAL_RECONNECT_DELAY * 2 ^ Z.of_nat attempts) MAX_RECONNECT_DELAY.

(** [ws.onopen] *)
Definition onopen (c : Conn) : Conn * list Action :=
  (mkConn 0 Connected,
   [SendAuth; StartHealthCheck; StartPing; StartNoUpdatesTimeout]).

(** [ws.onclose] *)
Definition onclose (c : Conn) : Conn * list Action :=
  let delay := reconnectDelay (reconnectAttempts c) in
  let attempts := S (reconnectAttempts c) in
  (mkConn attempts Disconnected,
   if (Z.of_nat attempts <=? MAX_RECONNECT_ATTEMPTS)%Z
   then [ScheduleReconnect delay]
   else [ReloadPage]).

Inductive Event := Open | Close.

Definition step (c : Conn) (e : Event) : Conn * list Action :=
  match e with
  | Open => onopen c
  | Close => onclose c
  end.

(** The state after a series of socket events (the actions are dropped). *)
Definition after (c : Conn) (evs : list Event) : Conn :=
  foldl (fun c e => fst (step c e)) c evs.

(** The delay of the reconnection an event schedules, if it schedules one. *)
Definition scheduled (out : list Action) : option Z :=
  head (omap (fun a => match a with ScheduleReconnect d => Some d | _ => None end) out).

Definition reloads (out : list Action) : bool :=
  existsb (fun a => match a with ReloadPage => true | _ => false end) out.

End Session.

(** ** Strings *)

(** A JS string as its UTF-16 code units. *)
Definition jsstring := list N.

(** [WhiteSpace] and [LineTerminator] of ECMAScript, the code units
    [String.prototype.trim] removes. *)
Definition isWhiteSpace (c : N) : bool :=
  (existsb (N.eqb c)
     [9; 10; 11; 12; 13; 32; 160; 5760; 8232; 8233; 8239; 8287; 12288; 65279]
   || (8192 <=? c) && (c <=? 8202))%N.

Fixpoint trimStart (s : jsstring) : jsstring :=
  match s with
  | c :: s' => if isWhiteSpace c then trimStart s' else s
  | [] => []
  end.

Definition trimEnd (s : jsstring) : jsstring :=
  reverse (trimStart (reverse s)).

Definition trim (s : jsstring) : jsstring := trimEnd (trimStart s).

(** Truthiness of a value that is a string, [null] or [undefined]. *)
Definition truthy (s : option jsstring) : bool :=
  match s with
  | Some (_ :: _) => true
  | _ => false
  end.

(** ** Audio capture cycle and caption store *)

(** A recorded chunk, known by its size, and the blob made of chunks. *)
Definition Chunk := nat.
Definition Blob := list Chunk.

Record TranscriptEntry := mkEntry {
  text : jsstring;
  timestamp : Z;
  id : nat
}.

(** The outcome of [fetch] followed by [response.json()]: the request
    failed, or a response came whose body either is not the JSON of an
    object ([None]) or is an object with the given [text] field ([None]
    inside when the field is missing). *)
Inductive FetchResult :=
| NetworkError
| Response (status : Z) (body : option (option jsstring)).

Inductive AudioEffect :=
| NewBlob (chunks : list Chunk)
| PlayAudio (b : Blob)
| Upload (bearer : option jsstring) (b : Blob)
| LogError.

(** React state and refs of the component that the audio cycle touches.
    [recorders] holds one entry per recording cycle that was started and
    whose interval is still armed; the entry is the render whose [onstop]
    and [transcribe] closures the cycle uses. *)
Record Render := mkRender {
  seenPassword : option jsstring;
  seenTotal : nat
}.

Record Page := mkPage {
  isAuthenticated : bool;
  serverPassword : option jsstring;
  authToken : option jsstring;
  transcripts : list TranscriptEntry;
  totalTranscripts : nat;
  audioChunks : list Chunk;
  recorders : list Render
}.

Definition live (now : Z) (t : TranscriptEntry) : bool :=
  (now - timestamp t <? SCROLL_DURATION * 1000)%Z.

(** [addTranscript], in a render whose [totalTranscripts] is [seen]. *)
Definition addTranscript (seen : nat) (txt : jsstring) (now : Z) (p : Page)
  : Page :=
  let newTranscripts := transcripts p ++ [mkEntry txt now seen] in
  mkPage (isAuthenticated p) (serverPassword p) (authToken p)
         (List.filter (live now) newTranscripts)
         (S (totalTranscripts p)) (audioChunks p) (recorders p).

Definition setChunks (chunks : list Chunk) (p : Page) : Page :=
  mkPage (isAuthenticated p) (serverPassword p) (authToken p)
         (transcripts p) (totalTranscripts p) chunks (recorders p).

(** [setIsAuthenticated(false); setServerPassword(null)] *)
Definition invalidate (p : Page) : Page :=
  mkPage false None (authToken p) (transcripts p) (totalTranscripts p)
         (audioChunks p) (recorders p).

Module Audio.

(** [transcribe] of the render [r].  The function reads [serverPassword]
    from its closure, that is from [r]; it writes the state of the page
    only after the reply, so the request and the reply are one step. *)
Definition transcribe (r : Render) (audioBlob : Blob) (reply : FetchResult)
    (now : Z) (p : Page) : Page * list AudioEffect :=
  if negb (truthy (seenPassword r)) then (p, [])
  else
    let upload := Upload (seenPassword r) audioBlob in
    match reply with
    | NetworkError => (p, [upload; LogError])
    | Response status body =>
        if (status =? 401)%Z then (invalidate p, [upload])
        else
          match body with
          | None => (p, [upload; LogError])
          | Some data_text =>
              if truthy data_text
              then (addTranscript (seenTotal r) (default [] data_text) now p,
                    [upload])
              else (p, [upload])
          end
    end.

(** [mediaRecorder.onstop] of a cycle started in the render [r]. *)
Definition onstop (r : Render) (reply : FetchResult) (now : Z) (p : Page)
  : Page * list AudioEffect :=
  match audioChunks p with
  | [] => (p, [])
  | chunks =>
      let audioBlob : Blob := chunks in
      let '(p', out) := transcribe r audioBlob reply now (setChunks [] p) in
      (p', [NewBlob chunks; PlayAudio audioBlob] ++ out)
  end.

(** [mediaRecorder.ondataavailable] *)
Definition ondataavailable (size : nat) (p : Page) : Page :=
  if 0 <? size then setChunks (audioChunks p ++ [size]) p else p.

(** [handleAuthenticated]: three state updates, batched into one render. *)
Definition handleAuthenticated (password : jsstring) (p : Page) : Page :=
  mkPage true (Some password) (Some password) (transcripts p)
         (totalTranscripts p) (audioChunks p) (recorders p).

(** The audio effect, whose only dependency is [isAuthenticated]; [was] is
    the value at the render before.  It does not run when the value is
    unchanged and returns at once when the value is [false].  Otherwise
    [initAudio] asks for the microphone ([mic] tells whether it is granted)
    and starts a recording cycle whose [onstop] calls the [transcribe] of
    this render.  The effect hands no cleanup to React, so the cycles
    started earlier stay armed. *)
Definition audioEffect (was : bool) (mic : bool) (p : Page) : Page :=
  if eqb was (isAuthenticated p) then p
  else if negb (isAuthenticated p) then p
  else if mic
  then mkPage (isAuthenticated p) (serverPassword p) (authToken p)
              (transcripts p) (totalTranscripts p) (audioChunks p)
              (recorders p
                 ++ [mkRender (serverPassword p) (totalTranscripts p)])
  else p.

(** What happens on the page: someone authenticates, the interval of a
    cycle fires ([stopRecording(); startRecording()], which empties the
    chunk buffer), the recorder delivers data, or the recorder of the
    [i]-th cycle delivers its stop. *)
Inductive Event :=
| Authenticated (password : jsstring) (mic : bool)
| RecordingInterval
| DataAvailable (size : nat)
| Stop (i : nat) (reply : FetchResult) (now : Z).

(** A handler followed by the commit of the render it causes. *)
Definition step (p : Page) (e : Event) : Page * list AudioEffect :=
  match e with
  | Authenticated password mic =>
      (audioEffect (isAuthenticated p) mic (handleAuthenticated password p),
       [])
  | RecordingInterval => (setChunks [] p, [])
  | DataAvailable size => (ondataavailable size p, [])
  | Stop i reply now =>
      match recorders p !! i with
      | Some r =>
          let '(p', out) := onstop r reply now p in
          (audioEffect (isAuthenticated p) true p', out)
      | None => (p, [])
      end
  end.

Fixpoint run (p : Page) (evs : list Event) : Page * list (list AudioEffect) :=
  match evs with
  | [] => (p, [])
  | e :: evs' =>
      let '(p1, out1) := step p e in
      let '(p2, outs) := run p1 evs' in
      (p2, out1 :: outs)
  end.

(** The page before anyone authenticated. *)
Definition initial : Page := mkPage false None None [] 0 [] [].

End Audio.

(** The stop handler of the older revision, which uploads without a
    credential, accepts only [response.ok] and trims the text. *)
Module WebAudio.

Definition onstop (seen : nat) (reply : FetchResult) (now : Z) (p : Page)
  : Page * list AudioEffect :=
  match audioChunks p with
  | [] => (p, [])
  | chunks =>
      let audioBlob : Blob := chunks in
      let p1 := setChunks [] p in
      let upload := Upload None audioBlob in
      match reply with
      | NetworkError => (p1, [NewBlob chunks; upload; LogError])
      | Response status body =>
          if ((200 <=? status) && (status <=? 299))%Z
          then
            match body with
            | None => (p1, [NewBlob chunks; upload; LogError])
            | Some data_text =>
                if truthy data_text && truthy (Some (trim (default [] data_text)))
                then (addTranscript seen (trim (default [] data_text)) now p1,
                      [NewBlob chunks; upload])
                else (p1, [NewBlob chunks; upload])
            end
          else (p1, [NewBlob chunks; upload; LogError])
      end
  end.

End WebAudio.

(** ** Outbound pipeline *)

Module Outbound.

Inductive ReadyState := CONNECTING | OPEN | CLOSING | CLOSED.

(** The locals of the sending effect and the asynchronous work in flight:
    [encoding] holds the [now] of every [toBlob] whose callback has not
    run, [buffering] the [now] of every [arrayBuffer()] promise that has
    not resolved. *)
Record Pipe := mkPipe {
  lastFrameTime : Z;
  encoding : list Z;
  buffering : list Z
}.

(** [Sent now t]: the frame captured by the tick that read [now] went out
    on an open socket at time [t].  [Discarded]: [send] on a socket that is
    closing or closed.  [Threw]: [send] on a connecting socket. *)
Inductive Out :=
| Drawn
| Sent (now : Z) (t : Z)
| Discarded
| Threw.

(** [sendFrame]; [video] tells whether [videoRef.current] is set and
    [connected] is the [wsStatus === 'connected'] of the closure. *)
Definition sendFrame (connected : bool) (now : Z) (video : bool) (s : Pipe)
  : Pipe * list Out :=
  if (now - lastFrameTime s <? FRAME_INTERVAL)%Z then (s, [])
  else if video && connected
  then (mkPipe (lastFrameTime s) (encoding s ++ [now]) (buffering s), [Drawn])
  else (s, []).

(** The callback of the [i]-th pending [toBlob]: [blob] tells whether a
    blob was produced, [socket] is [socketRef.current?.readyState]. *)
Definition blobReady (i : nat) (blob : bool) (socket : option ReadyState)
    (s : Pipe) : Pipe * list Out :=
  match encoding s !! i with
  | None => (s, [])
  | Some now =>
      match blob, socket with
      | true, Some OPEN =>
          (mkPipe (lastFrameTime s) (delete i (encoding s))
                  (buffering s ++ [now]), [])
      | _, _ => (mkPipe (lastFrameTime s) (delete i (encoding s))
                        (buffering s), [])
      end
  end.

(** The continuation of the [i]-th pending [arrayBuffer()]:
    [socketRef?.current?.send(buffer); lastFrameTime = now], run at
    time [t]. *)
Definition bufferReady (i : nat) (socket : option ReadyState) (t : Z)
    (s : Pipe) : Pipe * list Out :=
  match buffering s !! i with
  | None => (s, [])
  | Some now =>
      match socket with
      | Some CONNECTING =>
          (mkPipe (lastFrameTime s) (encoding s) (delete i (buffering s)),
           [Threw])
      | Some OPEN =>
          (mkPipe now (encoding s) (delete i (buffering s)), [Sent now t])
      | Some _ =>
          (mkPipe now (encoding s) (delete i (buffering s)), [Discarded])
      | None =>
          (mkPipe now (encoding s) (delete i (buffering s)), [])
      end
  end.

Inductive Event :=
| SendFrame (now : Z) (video : bool)
| BlobReady (i : nat) (blob : bool) (socket : option ReadyState)
| BufferReady (i : nat) (socket : option ReadyState) (t : Z).

(** The interval is installed only by an effect run with
    [wsStatus === 'connected'], and [sendFrame] keeps that value. *)
Definition step (s : Pipe) (e : Event) : Pipe * list Out :=
  match e with
  | SendFrame now video => sendFrame true now video s
  | BlobReady i blob socket => blobReady i blob socket s
  | BufferReady i socket t => bufferReady i socket t s
  end.

Fixpoint run (s : Pipe) (evs : list Event) : Pipe * list Out :=
  match evs with
  | [] => (s, [])
  | e :: evs' =>
      let '(s1, out1) := step s e in
      let '(s2, out2) := run s1 evs' in
      (s2, out1 ++ out2)
  end.

(** [let lastFrameTime = 0] and nothing in flight. *)
Definition initial : Pipe := mkPipe 0 [] [].

Definition sent (out : list Out) : list (Z * Z) :=
  omap (fun x => match x with Sent now t => Some (now, t) | _ => None end) out.

(** Every tick of the series finds nothing in flight: the work a tick
    starts is over before the next tick. *)
Fixpoint serial (s : Pipe) (evs : list Event) : Prop :=
  match evs with
  | [] => True
  | e :: evs' =>
      match e with
      | SendFrame _ _ => encoding s = [] /\ buffering s = []
      | _ => True
      end /\ serial (step s e).1 evs'
  end.

(** Each time is at least [FRAME_INTERVAL] after the one before it,
    starting from [last]. *)
Fixpoint spaced (last : Z) (nows : list Z) : Prop :=
  match nows with
  | [] => True
  | now :: nows' => (last + FRAME_INTERVAL <= now)%Z /\ spaced now nows'
  end.

(** At most one frame is in flight and it passed the gate. *)
Definition fresh (s : Pipe) : Prop :=
  length (encoding s ++ buffering s) <= 1
  /\ forall now, now ∈ encoding s ++ buffering s ->
       (lastFrameTime s + FRAME_INTERVAL <= now)%Z.

End Outbound.

(** ** The first page: one canvas, no transition *)

(** The oldest revision of the component draws the head of the queue on
    every run of [renderFrame] and queues every decoded image. *)
Module Legacy.

Section Loop.

Context {Img : Type}.

(** [frameQueueRef], [lastWarpedFrameRenderTimeRef] and whether a run of
    [renderFrame] is registered with [requestAnimationFrame]. *)
Record Viewer := mkViewer {
  queue : list Img;
  lastWarpedFrameRenderTime : option Z;
  looping : bool
}.

(** [img.onload] *)
Definition onload (img : Img) (s : Viewer) : Viewer :=
  mkViewer (queue s ++ [img]) (lastWarpedFrameRenderTime s) (looping s).

(** One run of [renderFrame]: [canvas] tells whether
    [processedCanvasRef.current] is set and [ctx] whether it gave a 2d
    context.  The result lists the image drawn, if any.  The two early
    returns come before the loop registers itself again. *)
Definition renderFrame (now : Z) (canvas ctx : bool) (s : Viewer)
  : Viewer * list Img :=
  if negb canvas then (mkViewer (queue s) (lastWarpedFrameRenderTime s) false, [])
  else if negb ctx then (mkViewer (queue s) (lastWarpedFrameRenderTime s) false, [])
  else
    match queue s with
    | img :: remainingFrames => (mkViewer remainingFrames (Some now) true, [img])
    | [] => (mkViewer [] (lastWarpedFrameRenderTime s) true, [])
    end.

Inductive Event :=
| Decoded (img : Img)
| Frame (now : Z) (canvas ctx : bool).

(** A registered run of [renderFrame] happens only while the loop is
    alive. *)
Definition step (s : Viewer) (e : Event) : Viewer * list Img :=
  match e with
  | Decoded img => (onload img s, [])
  | Frame now canvas ctx =>
      if looping s then renderFrame now canvas ctx s else (s, [])
  end.

Fixpoint run (s : Viewer) (evs : list Event) : Viewer * list Img :=
  match evs with
  | [] => (s, [])
  | e :: evs' =>
      let '(s1, out1) := step s e in
      let '(s2, out2) := run s1 evs' in
      (s2, out1 ++ out2)
  end.

Definition arrivals (evs : list Event) : list Img :=
  omap (fun e => match e with Decoded img => Some img | _ => None end) evs.

(** The effect calls [renderFrame] itself once rendering starts. *)
Definition initial : Viewer := mkViewer [] None true.

End Loop.

Arguments Viewer : clear implicits.
Arguments Event : clear implicits.

End Legacy.

(** ** Caption store *)

Module Captions.

(** The updater of the cleanup interval and of [updateTranscripts]. *)
Definition purge (now : Z) (p : Page) : Page :=
  mkPage (isAuthenticated p) (serverPassword p) (authToken p)
         (List.filter (live now) (transcripts p))
         (totalTranscripts p) (audioChunks p) (recorders p).

(** A caption is added by a render that saw [seen] as the total, or the
    store is purged. *)
Inductive Event :=
| Add (seen : nat) (txt : jsstring) (now : Z)
| Purge (now : Z).

Definition time (e : Event) : Z :=
  match e with
  | Add _ _ now => now
  | Purge now => now
  end.

Definition step (p : Page) (e : Event) : Page :=
  match e with
  | Add seen txt now => addTranscript seen txt now p
  | Purge now => purge now p
  end.

Definition run (p : Page) (evs : list Event) : Page := foldl step p evs.

Definition adds (evs : list Event) : nat :=
  length (omap (fun e => match e with Add _ _ _ => Some tt | _ => None end) evs).

End Captions.

(** ** Camera list *)

Module Devices.

Inductive Kind := audioinput | audiooutput | videoinput.

(** [MediaDeviceInfo] as [enumerateDevices] gives it. *)
Record MediaDeviceInfo := mkMedia {
  kind : Kind;
  mediaId : jsstring;
  mediaLabel : jsstring
}.

(** [DeviceInfo] *)
Record DeviceInfo := mkDevice {
  deviceId : jsstring;
  label : jsstring
}.

(** [videoDevices] and [selectedDeviceId] *)
Record Picker := mkPicker {
  videoDevices : list DeviceInfo;
  selectedDeviceId : jsstring
}.

Definition isVideo (d : MediaDeviceInfo) : bool :=
  match kind d with videoinput => true | _ => false end.

(** The text [Camera ] of the template. *)
Definition camera : jsstring := [67; 97; 109; 101; 114; 97; 32]%N.

Definition toDeviceInfo (d : MediaDeviceInfo) : DeviceInfo :=
  mkDevice (mediaId d)
           (if truthy (Some (mediaLabel d)) then mediaLabel d
            else camera ++ mediaId d).

(** [getVideoDevices] of a render that saw [seenSelected] as
    [selectedDeviceId]; [devices] is the result of [enumerateDevices], or
    [None] when it failed. *)
Definition getVideoDevices (seenSelected : jsstring)
    (devices : option (list MediaDeviceInfo)) (s : Picker) : Picker :=
  match devices with
  | None => s
  | Some devices =>
      let found := toDeviceInfo <$> List.filter isVideo devices in
      match found with
      | first :: _ =>
          if negb (truthy (Some seenSelected))
          then mkPicker found (deviceId first)
          else mkPicker found (selectedDeviceId s)
      | [] => mkPicker found (selectedDeviceId s)
      end
  end.

End Devices.

(** ** Password form *)

Module PasswordAuth.

(** [password], [error], [isLoading] *)
Record Form := mkForm {
  password : jsstring;
  error : jsstring;
  isLoading : bool
}.

(** What the verification request came to: a response with its [ok], or a
    failure of [fetch]. *)
Inductive Verdict := Answered (ok : bool) | Failed.

Definition invalidPassword : jsstring :=
  [73; 110; 118; 97; 108; 105; 100; 32; 112; 97; 115; 115; 119; 111; 114; 100]%N.

Definition failedToAuthenticate : jsstring :=
  [70; 97; 105; 108; 101; 100; 32; 116; 111; 32; 97; 117; 116; 104; 101; 110;
   116; 105; 99; 97; 116; 101; 46; 32; 80; 108; 101; 97; 115; 101; 32; 116;
   114; 121; 32; 97; 103; 97; 105; 110; 46]%N.

(** [handleSubmit] up to the [await]: the form is busy and shows no
    error; the request carries the password typed so far. *)
Definition submit (f : Form) : Form * jsstring :=
  (mkForm (password f) [] true, password f).

(** [handleSubmit] from the [await] on, for the request that carried
    [sent]: the result holds the password handed to [onAuthenticated], if
    it is called. *)
Definition settle (sent : jsstring) (v : Verdict) (f : Form)
  : Form * option jsstring :=
  match v with
  | Answered true => (mkForm (password f) (error f) false, Some sent)
  | Answered false => (mkForm (password f) invalidPassword false, None)
  | Failed => (mkForm (password f) failedToAuthenticate false, None)
  end.

Definition handleSubmit (v : Verdict) (f : Form) : Form * option jsstring :=
  let '(f1, sent) := submit f in settle sent v f1.

End PasswordAuth.

(** ** Counting on the effects of the display loop *)

(** How many times the canvases were exchanged. *)
Definition swaps {Img Opacity : Type} (out : list (Effect Img Opacity)) : nat :=
  length (omap (fun x => match x with SwapCanvases => Some tt | _ => None end) out).

Arguments swaps {Img Opacity} out : simpl never.

(** ** Reconnection in the older revision *)

(** The older revision multiplies the delay by a constant factor on every
    close and never gives up.  [retryDelay] is a double; every value it
    takes is a multiple of [2^-9] below [2^16], which a double holds
    exactly, so the arithmetic is the one of the rationals. *)
Module WebRetry.

Definition INITIAL_RETRY_DELAY : Q := 1000.
Definition MAX_RETRY_DELAY : Q := 30000.
Definition BACKOFF_FACTOR : Q := 3 # 2.

(** The locals [retryCount] and [retryDelay] of the connection effect. *)
Record Retry := mkRetry {
  retryCount : nat;
  retryDelay : Q
}.

Definition initial : Retry := mkRetry 0 INITIAL_RETRY_DELAY.

(** [socket.onopen] *)
Definition onopen (r : Retry) : Retry := mkRetry 0 INITIAL_RETRY_DELAY.

(** [socket.onclose]: the new locals and the delay of the timer it sets. *)
Definition onclose (r : Retry) : Retry * Q :=
  let retryDelay' := Qmin (retryDelay r * BACKOFF_FACTOR) MAX_RETRY_DELAY in
  (mkRetry (S (retryCount r)) retryDelay', retryDelay').

Inductive Event := Open | Close.

Definition step (r : Retry) (e : Event) : Retry * list Q :=
  match e with
  | Open => (onopen r, [])
  | Close => let '(r', delay) := onclose r in (r', [delay])
  end.

Fixpoint run (r : Retry) (evs : list Event) : Retry * list Q :=
  match evs with
  | [] => (r, [])
  | e :: evs' =>
      let '(r1, out1) := step r e in
      let '(r2, out2) := run r1 evs' in
      (r2, out1 ++ out2)
  end.

(** The locals after an open and [k] closes in a row. *)
Definition closes (k : nat) (r : Retry) : Retry :=
  Nat.iter k (fun r => (onclose r).1) (onopen r).

End WebRetry.

(** ** Session manager: sockets, heartbeat and timers *)

(** [connectWebSocket] and the handlers it installs, with the timers they
    arm and clear.  A socket is known by its rank among the sockets the
    component created; a timer by the id [setTimeout] or [setInterval]
    gave it, which is positive and never given twice. *)
Module Link.

Import Outbound.

Inductive TimerKind :=
| Reconnect (delay : Z)
| HealthCheck (ws : nat)
| Ping (ws : nat)
| NoUpdates.

Definition Timer : Type := nat * TimerKind.

Record Refs := mkRefs {
  reconnectTimeoutRef : option nat;
  healthCheckIntervalRef : option nat;
  pingIntervalRef : option nat;
  noUpdatesTimeoutRef : option nat
}.

Record Link := mkLink {
  reconnectAttempts : nat;
  lastFrameTime : Z;
  sockets : list ReadyState;
  socketRef : option nat;
  timers : list Timer;
  nextTimer : nat;
  refs : Refs;
  reloaded : bool
}.

Inductive Sent :=
| Auth (ws : nat)
| PingMessage (ws : nat)
| Reload.

(** A text message: not JSON, or JSON with the given [type] field. *)
Inductive Text :=
| Unparsable
| Typed (type : option jsstring).

Definition pong : jsstring := [112; 111; 110; 103]%N.

Definition remove (id : nat) (ts : list Timer) : list Timer :=
  filter (fun t : Timer => t.1 <> id) ts.

(** [if (ref.current) clearTimeout(ref.current)] *)
Definition clear (ref : option nat) (ts : list Timer) : list Timer :=
  match ref with
  | Some (S _ as id) => remove id ts
  | _ => ts
  end.

Definition clearAll (r : Refs) (ts : list Timer) : list Timer :=
  clear (noUpdatesTimeoutRef r)
    (clear (pingIntervalRef r)
       (clear (healthCheckIntervalRef r)
          (clear (reconnectTimeoutRef r) ts))).

(** [ws.close()]: a socket that is connecting or open starts closing. *)
Definition close (w : nat) (ss : list ReadyState) : list ReadyState :=
  match ss !! w with
  | Some CONNECTING | Some OPEN => <[w := CLOSING]> ss
  | _ => ss
  end.

Definition closeCurrent (s : Link) : list ReadyState :=
  match socketRef s with
  | Some w => close w (sockets s)
  | None => sockets s
  end.

(** [connectWebSocket]; [password] tells whether its closure holds a
    password. *)
Definition connectWebSocket (password : bool) (s : Link) : Link :=
  if negb password then s
  else
    let ss := closeCurrent s in
    mkLink (reconnectAttempts s) (lastFrameTime s)
           (ss ++ [CONNECTING]) (Some (length ss))
           (clearAll (refs s) (timers s)) (nextTimer s) (refs s) (reloaded s).

(** [ws.onopen] of the socket [w] *)
Definition onopen (w : nat) (s : Link) : Link * list Sent :=
  let health := nextTimer s in
  let ping := S health in
  let noUpdates := S ping in
  (mkLink 0 (lastFrameTime s) (sockets s) (socketRef s)
          (timers s ++ [(health, HealthCheck w); (ping, Ping w);
                        (noUpdates, NoUpdates)])
          (S noUpdates)
          (mkRefs (reconnectTimeoutRef (refs s)) (Some health) (Some ping)
                  (Some noUpdates))
          (reloaded s),
   [Auth w]).

(** [img.onload] of a binary message, as far as the session goes. *)
Definition onframe (now : Z) (s : Link) : Link :=
  mkLink (reconnectAttempts s) now (sockets s) (socketRef s) (timers s)
         (nextTimer s) (refs s) (reloaded s).

(** The text branch of [ws.onmessage]. *)
Definition ontext (t : Text) (now : Z) (s : Link) : Link :=
  match t with
  | Typed (Some type) => if decide (type = pong) then onframe now s else s
  | _ => s
  end.

(** [ws.onclose] *)
Definition onclose (s : Link) : Link * list Sent :=
  let delay := Session.reconnectDelay (reconnectAttempts s) in
  let attempts := S (reconnectAttempts s) in
  if (Z.of_nat attempts <=? MAX_RECONNECT_ATTEMPTS)%Z
  then
    let id := nextTimer s in
    (mkLink attempts (lastFrameTime s) (sockets s) (socketRef s)
            (timers s ++ [(id, Reconnect delay)]) (S id)
            (mkRefs (Some id) (healthCheckIntervalRef (refs s))
                    (pingIntervalRef (refs s)) (noUpdatesTimeoutRef (refs s)))
            (reloaded s), [])
  else
    (mkLink attempts (lastFrameTime s) (sockets s) (socketRef s)
            (timers s) (nextTimer s) (refs s) true, [Reload]).

Definition withSockets (ss : list ReadyState) (s : Link) : Link :=
  mkLink (reconnectAttempts s) (lastFrameTime s) ss (socketRef s) (timers s)
         (nextTimer s) (refs s) (reloaded s).

Definition withTimers (ts : list Timer) (s : Link) : Link :=
  mkLink (reconnectAttempts s) (lastFrameTime s) (sockets s) (socketRef s) ts
         (nextTimer s) (refs s) (reloaded s).

(** The callback of an armed timer, run at [now].  A timeout is spent when
    it fires; an interval stays armed.  The [connectWebSocket] a close
    handler schedules is the one that made the socket, so its closure
    holds a password. *)
Definition fire (id : nat) (k : TimerKind) (now : Z) (s : Link)
  : Link * list Sent :=
  match k with
  | Reconnect _ => (connectWebSocket true (withTimers (remove id (timers s)) s), [])
  | HealthCheck w =>
      if (HEALTH_CHECK_INTERVAL <? now - lastFrameTime s)%Z
      then (withSockets (close w (sockets s)) s, [])
      else (s, [])
  | Ping w =>
      match sockets s !! w with
      | Some OPEN => (s, [PingMessage w])
      | _ => (s, [])
      end
  | NoUpdates =>
      (mkLink (reconnectAttempts s) (lastFrameTime s) (sockets s)
              (socketRef s) (remove id (timers s)) (nextTimer s) (refs s) true,
       [Reload])
  end.

(** The cleanup of the connection effect, and the cleanup at unmount. *)
Definition effectCleanup (s : Link) : Link := withSockets (closeCurrent s) s.

Definition unmount (s : Link) : Link :=
  withTimers (clearAll (refs s) (timers s)) (withSockets (closeCurrent s) s).

Definition armed (id : nat) (ts : list Timer) : option TimerKind :=
  match List.find (fun t : Timer => t.1 =? id) ts with
  | Some t => Some t.2
  | None => None
  end.

(** What happens to the session.  The browser delivers [open] only to a
    socket that is connecting and [close] only to a socket that is not
    closed yet; a timer fires only while it is armed; nothing runs after
    the page reloaded. *)
Inductive Event :=
| Connect (password : bool)
| Opened (w : nat)
| Closed (w : nat)
| FrameDecoded (now : Z)
| TextMessage (t : Text) (now : Z)
| Fire (id : nat) (now : Z)
| EffectCleanup
| Unmount.

Definition step (s : Link) (e : Event) : Link * list Sent :=
  if reloaded s then (s, [])
  else
    match e with
    | Connect password => (connectWebSocket password s, [])
    | Opened w =>
        match sockets s !! w with
        | Some CONNECTING => onopen w (withSockets (<[w := OPEN]> (sockets s)) s)
        | _ => (s, [])
        end
    | Closed w =>
        match sockets s !! w with
        | Some CLOSED | None => (s, [])
        | Some _ => onclose (withSockets (<[w := CLOSED]> (sockets s)) s)
        end
    | FrameDecoded now => (onframe now s, [])
    | TextMessage t now => (ontext t now s, [])
    | Fire id now =>
        match armed id (timers s) with
        | Some k => fire id k now s
        | None => (s, [])
        end
    | EffectCleanup => (effectCleanup s, [])
    | Unmount => (unmount s, [])
    end.

Fixpoint run (s : Link) (evs : list Event) : Link * list Sent :=
  match evs with
  | [] => (s, [])
  | e :: evs' =>
      let '(s1, out1) := step s e in
      let '(s2, out2) := run s1 evs' in
      (s2, out1 ++ out2)
  end.

(** The refs at mount; [lastFrameTimeRef] starts at the time of the
    mount. *)
Definition initial (t0 : Z) : Link :=
  mkLink 0 t0 [] None [] 1 (mkRefs None None None None) false.

Definition heartbeat (k : TimerKind) : bool :=
  match k with
  | Reconnect _ => false
  | _ => true
  end.

Definition sameKind (k1 k2 : TimerKind) : bool :=
  match k1, k2 with
  | Reconnect _, Reconnect _ => true
  | HealthCheck _, HealthCheck _ => true
  | Ping _, Ping _ => true
  | NoUpdates, NoUpdates => true
  | _, _ => false
  end.

(** The timer belongs to the socket in [socketRef] and is the one its ref
    holds. *)
Definition owned (s : Link) (t : Timer) : Prop :=
  match t.2 with
  | Reconnect _ => True
  | HealthCheck w =>
      healthCheckIntervalRef (refs s) = Some t.1 /\ socketRef s = Some w
  | Ping w => pingIntervalRef (refs s) = Some t.1 /\ socketRef s = Some w
  | NoUpdates => noUpdatesTimeoutRef (refs s) = Some t.1
  end.

(** What every handler keeps: ids are positive, below the next id and
    given once; every heartbeat timer is owned; a connecting socket is
    the current one and has no heartbeat timer yet. *)
Record tidy (s : Link) : Prop := mkTidy {
  tidy_next : 1 <= nextTimer s;
  tidy_ids : forall t, t ∈ timers s -> 1 <= t.1 < nextTimer s;
  tidy_once : NoDup (timers s).*1;
  tidy_owned : forall t, t ∈ timers s -> owned s t;
  tidy_connecting : forall w, sockets s !! w = Some CONNECTING ->
      socketRef s = Some w /\ forall t, t ∈ timers s -> heartbeat t.2 = false
}.

Definition traffic (e : Event) : bool :=
  match e with
  | FrameDecoded _ | TextMessage _ _ => true
  | _ => false
  end.

End Link.


(** ** From the socket to the queue *)

(** [ws.onmessage] makes an [Image] for every binary message and sets its
    [src]; the image enters the queue when its [load] event fires.  Every
    message starts a load of its own and the handler does nothing to order
    the [load] events of different images.  An image that fails to decode
    fires [error] instead, for which there is no handler, so it is never
    queued.  The two revisions differ only in the body of [img.onload]. *)
Module Inbound.

Section Receiver.

Context {Img Opacity : Type}.
Variable opacity_one : Opacity.
Variable opacity_step : Opacity -> Opacity.
Variable opacity_pos : Opacity -> bool.
Variable onload : list Img -> Img -> list Img.

(** The images whose [src] is set and whose [load] has not fired, oldest
    first, and the refs of the display loop. *)
Record Receiver := mkReceiver {
  loading : list Img;
  scheduler : Sched Img Opacity
}.

(** A binary message arrives; the [load] or the [error] event of the
    [i]-th image still loading fires; the display loop runs; a [fade]
    closure runs. *)
Inductive Input :=
| Binary (img : Img)
| Loaded (i : nat)
| Failed (i : nat)
| DisplayLoop (now : Z) (ctx : bool)
| FadeLoop (i : nat) (now : Z).

Definition step (r : Receiver) (e : Input)
  : Receiver * list (Effect Img Opacity) :=
  match e with
  | Binary img => (mkReceiver (loading r ++ [img]) (scheduler r), [])
  | Loaded i =>
      match loading r !! i with
      | Some img =>
          let '(s, out) :=
            step opacity_one opacity_step opacity_pos onload
                 (scheduler r) (Decoded img) in
          (mkReceiver (delete i (loading r)) s, out)
      | None => (r, [])
      end
  | Failed i => (mkReceiver (delete i (loading r)) (scheduler r), [])
  | DisplayLoop now ctx =>
      let '(s, out) :=
        step opacity_one opacity_step opacity_pos onload
             (scheduler r) (Tick now ctx) in
      (mkReceiver (loading r) s, out)
  | FadeLoop i now =>
      let '(s, out) :=
        step opacity_one opacity_step opacity_pos onload
             (scheduler r) (Fade i now) in
      (mkReceiver (loading r) s, out)
  end.

Fixpoint run (r : Receiver) (evs : list Input)
  : Receiver * list (Effect Img Opacity) :=
  match evs with
  | [] => (r, [])
  | e :: evs' =>
      let '(r1, out1) := step r e in
      let '(r2, out2) := run r1 evs' in
      (r2, out1 ++ out2)
  end.

(** The frames that arrived on the socket, in arrival order. *)
Definition messages (evs : list Input) : list Img :=
  omap (fun e => match e with Binary img => Some img | _ => None end) evs.

(** What the scheduler sees of a series of inputs, for a receiver with
    [pending] loads. *)
Fixpoint schedule (pending : list Img) (evs : list Input)
  : list (Event Img) :=
  match evs with
  | [] => []
  | Binary img :: evs' => schedule (pending ++ [img]) evs'
  | Loaded i :: evs' =>
      match pending !! i with
      | Some img => Decoded img :: schedule (delete i pending) evs'
      | None => schedule pending evs'
      end
  | Failed i :: evs' => schedule (delete i pending) evs'
  | DisplayLoop now ctx :: evs' => Tick now ctx :: schedule pending evs'
  | FadeLoop i now :: evs' => Fade i now :: schedule pending evs'
  end.

(** Every [load] event is that of the oldest image still loading: the
    images finish decoding in the order in which the messages arrived. *)
Definition inOrder (evs : list Input) : bool :=
  forallb (fun e => match e with Loaded i => i =? 0 | _ => true end) evs.

(** The receiver when the component mounts. *)
Definition initial (t0 : Z) (cur next : option Canvas) : Receiver :=
  mkReceiver [] (mount t0 cur next).

End Receiver.

Arguments Receiver : clear implicits.
Arguments Input : clear implicits.

End Inbound.
(** * Facts *)

(** Case analysis on membership in a list that is written out. *)
Ltac members H :=
  repeat first
    [ apply elem_of_nil in H; destruct H
    | apply elem_of_cons in H as [H|H]; [discriminate H|]
    | apply elem_of_cons in H as [H|H]; [congruence|] ];
  try done.

(** ** The overflow skip *)

Section SkipFacts.

Context {Img : Type}.
Implicit Types q : list Img.

Lemma overflowSkip_small q :
  length q <= MAX_BUFFER_SIZE / 2 -> overflowSkip q = q.
Proof.
  intros Hq. unfold overflowSkip.
  destruct (Nat.ltb_spec (MAX_BUFFER_SIZE / 2) (length q)) as [H|H]; [lia|done].
Qed.

Lemma overflowSkip_large q :
  MAX_BUFFER_SIZE / 2 < length q ->
  overflowSkip q = drop (length q / 2) q.
Proof.
  intros Hq. unfold overflowSkip.
  destruct (Nat.ltb_spec (MAX_BUFFER_SIZE / 2) (length q)) as [H|H]; [done|lia].
Qed.

Lemma overflowSkip_suffix q : exists n, overflowSkip q = drop n q.
Proof.
  unfold overflowSkip. destruct (_ <? _).
  - by eexists.
  - by exists 0.
Qed.

Lemma overflowSkip_sublist q : overflowSkip q `sublist_of` q.
Proof. destruct (overflowSkip_suffix q) as [n ->]. apply sublist_drop. Qed.

Lemma overflowSkip_length q :
  length (overflowSkip q) =
  if MAX_BUFFER_SIZE / 2 <? length q then length q - length q / 2 else length q.
Proof. unfold overflowSkip. destruct (_ <? _); by rewrite ?length_drop. Qed.

Lemma overflowSkip_length_le q : length (overflowSkip q) <= length q.
Proof. rewrite overflowSkip_length. destruct (_ <? _); lia. Qed.

Lemma overflowSkip_nonempty q : 0 < length q -> 0 < length (overflowSkip q).
Proof.
  intros Hq. rewrite overflowSkip_length. destruct (_ <? _); [|done].
  pose proof (Nat.div_lt (length q) 2 Hq). lia.
Qed.

(** Within the capacity, the skip leaves at most half the capacity. *)
Lemma overflowSkip_within_capacity q :
  length q <= MAX_BUFFER_SIZE ->
  length (overflowSkip q) <= MAX_BUFFER_SIZE / 2.
Proof.
  intros Hq. rewrite overflowSkip_length.
  change (MAX_BUFFER_SIZE / 2) with 8 in *. change MAX_BUFFER_SIZE with 16 in *.
  destruct (Nat.ltb_spec 8 (length q)) as [H|H]; [|done].
  pose proof (Nat.div_mod_eq (length q) 2).
  pose proof (Nat.mod_upper_bound (length q) 2). lia.
Qed.

End SkipFacts.

(** ** The display loop *)

Section SchedFacts.

Context {Img Opacity : Type}.
Variable opacity_one : Opacity.
Variable opacity_step : Opacity -> Opacity.
Variable opacity_pos : Opacity -> bool.
Variable onload : list Img -> Img -> list Img.

Local Abbreviation state := (Sched Img Opacity).
Local Abbreviation event := (Event Img).
Local Abbreviation effect := (Effect Img Opacity).
Local Abbreviation tick := (displayNextFrame opacity_one).
Local Abbreviation fading := (fade opacity_step opacity_pos).
Local Abbreviation step1 := (step opacity_one opacity_step opacity_pos onload).
Local Abbreviation runs := (run opacity_one opacity_step opacity_pos onload).

Implicit Types (s : state) (e : event) (evs : list event).

Lemma in_step_mount t0 cur next :
  in_step (mount t0 cur next : state).
Proof. reflexivity. Qed.

Lemma displayNextFrame_busy now ctx s :
  isTransitioning s = true -> tick now ctx s = (s, []).
Proof. intros H. unfold displayNextFrame. by rewrite H. Qed.

Lemma displayNextFrame_outcome now ctx s :
  tick_outcome opacity_one s (tick now ctx s).
Proof.
  unfold displayNextFrame.
  destruct (isTransitioning s) eqn:Ht; simpl; [constructor|].
  destruct (0 <? length (frameQueue s)); simpl; [|constructor].
  destruct (_ <=? _)%Z; [|constructor].
  destruct (head _) as [f|] eqn:Hf;
    [destruct (nextCanvas s) as [c|] eqn:Hc; [destruct ctx|]|];
    rewrite <- ?Hc; try (by apply tick_skipped).
  by apply tick_begun.
Qed.

Lemma overflowSkipped_quiet (q : list Img) (x : effect) :
  x ∈ (overflowSkipped q : list effect) -> exists n, x = SkipFrames n.
Proof.
  unfold overflowSkipped. destruct (_ <? _); [|by intros ?%elem_of_nil].
  intros ->%list_elem_of_singleton. by eexists.
Qed.

Lemma displayed_app (o1 o2 : list effect) :
  displayed (o1 ++ o2) = displayed o1 ++ displayed o2.
Proof. apply omap_app. Qed.

Lemma displayed_overflowSkipped (q : list Img) :
  displayed (overflowSkipped q : list effect) = [].
Proof. unfold overflowSkipped. by destruct (_ <? _). Qed.

Lemma fade_outcome_spec i now s :
  fade_outcome opacity_step i now s (fading i now s).
Proof.
  unfold fade. destruct (fades s !! i) as [o|] eqn:Ho; [|by constructor].
  destruct (opacity_pos o); [destruct (currentCanvas s) as [c|] eqn:Hc|].
  - rewrite <- Hc. by eapply fade_stepped.
  - rewrite <- Hc. by eapply fade_completed.
  - destruct (currentCanvas s) eqn:Hc; rewrite <- Hc; by eapply fade_completed.
Qed.

Lemma in_step_lookup s i o :
  in_step s -> fades s !! i = Some o ->
  isTransitioning s = true /\ fades s = [o] /\ i = 0.
Proof.
  unfold in_step. intros Hs Ho.
  destruct (isTransitioning s), (fades s) as [|o' [|??]]; simplify_eq/=.
  by destruct i; simplify_eq/=.
Qed.

Lemma in_step_idle s : in_step s -> isTransitioning s = false -> fades s = [].
Proof.
  unfold in_step. intros Hs Ht. rewrite Ht in Hs. by destruct (fades s).
Qed.

Lemma step_in_step s e : in_step s -> in_step (step1 s e).1.
Proof.
  intros Hs. destruct e as [img|now ctx|i now]; simpl.
  - done.
  - destruct (displayNextFrame_outcome now ctx s) as [|Ht|c f Ht Hf]; simpl.
    + done.
    + unfold in_step in *. simpl. by rewrite Ht in Hs.
    + unfold in_step in *. simpl. rewrite Ht in Hs.
      rewrite length_app, Hs. done.
  - destruct (fade_outcome_spec i now s) as [Hno|o c Ho|o Ho]; simpl.
    + done.
    + unfold in_step in *. simpl. by rewrite length_insert.
    + destruct (in_step_lookup s i o Hs Ho) as (Ht & Hf & ->).
      unfold in_step. simpl. by rewrite Hf.
Qed.

Lemma run_app s evs1 evs2 :
  runs s (evs1 ++ evs2) =
  let '(s1, o1) := runs s evs1 in
  let '(s2, o2) := runs s1 evs2 in (s2, o1 ++ o2).
Proof.
  revert s. induction evs1 as [|e evs1 IH]; intros s; simpl.
  - by destruct (runs s evs2).
  - destruct (step1 s e) as [s1 o1]. rewrite IH.
    destruct (runs s1 evs1) as [s2 o2]. destruct (runs s2 evs2) as [s3 o3].
    by rewrite app_assoc.
Qed.

Lemma run_in_step s evs : in_step s -> in_step (runs s evs).1.
Proof.
  revert s. induction evs as [|e evs IH]; intros s Hs; simpl; [done|].
  pose proof (step_in_step s e Hs) as H1.
  destruct (step1 s e) as [s1 o1]. specialize (IH s1 H1).
  by destruct (runs s1 evs).
Qed.

(** A transition begins only from the idle state, and the swap and the pop
    are done only by the closure of the one transition in flight, which
    ends with them. *)
Lemma step_exclusive s e :
  in_step s ->
  (BeginFade ∈ (step1 s e).2 ->
     isTransitioning s = false /\ fades s = [] /\
     isTransitioning (step1 s e).1 = true /\
     exists now ctx, e = Tick now ctx) /\
  (SwapCanvases ∈ (step1 s e).2 \/ PopFrame ∈ (step1 s e).2 ->
     isTransitioning s = true /\
     isTransitioning (step1 s e).1 = false /\ fades (step1 s e).1 = [] /\
     exists now o, e = Fade 0 now /\ fades s = [o]).
Proof.
  intros Hs. destruct e as [img|now ctx|i now]; simpl.
  - split; [intros H|intros [H|H]]; members H.
  - destruct (displayNextFrame_outcome now ctx s) as [|Ht|c f Ht Hf]; simpl.
    + split; [intros H|intros [H|H]]; members H.
    + split; [intros H|intros [H|H]];
        apply overflowSkipped_quiet in H as [n Hn]; done.
    + split.
      * intros _. repeat split; [done|by apply in_step_idle|by eauto].
      * intros [H|H];
          (apply elem_of_app in H as [[n Hn]%overflowSkipped_quiet|H];
           [done|members H]).
  - destruct (fade_outcome_spec i now s) as [Hno|o c Ho|o Ho]; simpl.
    + split; [intros H|intros [H|H]]; members H.
    + split; [intros H|intros [H|H]]; members H.
    + destruct (in_step_lookup s i o Hs Ho) as (Ht & Hf & ->). split.
      * intros H. unfold canvasEffects in H.
        destruct (nextCanvas s), (currentCanvas s); simpl in H; members H.
      * intros _. rewrite Hf. repeat split; [done|by eauto].
Qed.

(** What is drawn is taken from the head of the queue, and the queue holds
    arrivals in arrival order: whatever is drawn during a run is a
    subsequence of the frames waiting at its start followed by the frames
    that arrive during it. *)
Lemma run_displayed s evs :
  (forall q img, onload q img = q ++ [img] \/ onload q img = q) ->
  in_step s ->
  displayed (runs s evs).2 `sublist_of`
    (if isTransitioning s then drop 1 (frameQueue s) else frameQueue s)
      ++ arrivals evs.
Proof.
  intros Hload. revert s. induction evs as [|e evs IH]; intros s Hs; simpl.
  { apply sublist_nil_l. }
  pose proof (step_in_step s e Hs) as Hs1.
  destruct (step1 s e) as [s1 o1] eqn:Hstep. simpl in Hs1.
  specialize (IH s1 Hs1).
  destruct (runs s1 evs) as [s2 o2]. simpl in IH |- *. rewrite displayed_app.
  destruct e as [img|now ctx|i now]; simpl in Hstep |- *.
  - injection Hstep as <- <-. simpl in *.
    etrans; [apply IH|]. clear IH.
    destruct (isTransitioning s).
    + destruct (Hload (frameQueue s) img) as [-> | ->].
      * destruct (frameQueue s) as [|f q]; simpl.
        -- by apply sublist_cons.
        -- rewrite !drop_0. by rewrite <- app_assoc.
      * apply sublist_app; [done|by apply sublist_cons].
    + destruct (Hload (frameQueue s) img) as [-> | ->].
      * by rewrite <- app_assoc.
      * apply sublist_app; [done|by apply sublist_cons].
  - pose proof (displayNextFrame_outcome now ctx s) as Hout.
    rewrite Hstep in Hout. inversion Hout as [|Ht|c f Ht Hf]; subst; simpl in *.
    + done.
    + rewrite displayed_overflowSkipped, Ht. simpl.
      etrans; [apply IH|].
      apply sublist_app; [apply overflowSkip_sublist|done].
    + rewrite displayed_app, displayed_overflowSkipped, Ht. simpl.
      trans (overflowSkip (frameQueue s) ++ arrivals evs).
      * destruct (overflowSkip (frameQueue s)) as [|f' q]; simplify_eq/=.
        apply sublist_skip. by rewrite ?drop_0 in IH.
      * apply sublist_app; [apply overflowSkip_sublist|done].
  - pose proof (fade_outcome_spec i now s) as Hout.
    rewrite Hstep in Hout. inversion Hout as [Hno|o c Ho|o Ho]; subst; simpl in *.
    + done.
    + done.
    + destruct (in_step_lookup s i o Hs Ho) as (Ht & Hf & ->). rewrite Ht.
      replace (displayed _) with (@nil Img); [done|].
      unfold canvasEffects. by destruct (nextCanvas s), (currentCanvas s).
Qed.

(** A burst of decode completions only touches the queue. *)
Lemma run_decodes s (imgs : list Img) :
  runs s (Decoded <$> imgs) =
  (mkSched (foldl onload (frameQueue s) imgs) (isTransitioning s)
           (lastTransitionTime s) (currentCanvas s) (nextCanvas s) (fades s),
   []).
Proof.
  revert s. induction imgs as [|img imgs IH]; intros s; simpl.
  - by destruct s.
  - by rewrite IH.
Qed.

End SchedFacts.

(** ** The two decode handlers *)

Section Handlers.

Context {Img : Type}.
Implicit Types (q : list Img) (img : Img).

Lemma main_onload_appends q img :
  Main.onload q img = q ++ [img] \/ Main.onload q img = q.
Proof. by left. Qed.

Lemma web_onload_appends q img :
  Web.onload q img = q ++ [img] \/ Web.onload q img = q.
Proof. unfold Web.onload. destruct (_ <? _); auto. Qed.

Lemma main_onload_burst q (imgs : list Img) :
  foldl Main.onload q imgs = q ++ imgs.
Proof.
  revert q. induction imgs as [|img imgs IH]; intros q; simpl.
  - by rewrite app_nil_r.
  - rewrite IH. unfold Main.onload. by rewrite <- app_assoc.
Qed.

Lemma web_onload_length q img :
  length q <= MAX_BUFFER_SIZE -> length (Web.onload q img) <= MAX_BUFFER_SIZE.
Proof.
  intros Hq. unfold Web.onload.
  destruct (Nat.ltb_spec (length q) MAX_BUFFER_SIZE); [|done].
  rewrite length_app. simpl. lia.
Qed.

Lemma web_onload_burst q (imgs : list Img) :
  foldl Web.onload q imgs = q ++ take (MAX_BUFFER_SIZE - length q) imgs.
Proof.
  revert q. induction imgs as [|img imgs IH]; intros q; simpl.
  - by rewrite take_nil, app_nil_r.
  - rewrite IH. unfold Web.onload.
    destruct (Nat.ltb_spec (length q) MAX_BUFFER_SIZE) as [H|H].
    + rewrite length_app. simpl.
      replace (MAX_BUFFER_SIZE - length q) with (S (MAX_BUFFER_SIZE - (length q + 1))) by lia.
      simpl. by rewrite <- app_assoc.
    + replace (MAX_BUFFER_SIZE - length q) with 0 by lia. done.
Qed.

End Handlers.

(** ** The older revision keeps the queue within the capacity *)

Section WebBound.

Context {Img Opacity : Type}.
Variable opacity_one : Opacity.
Variable opacity_step : Opacity -> Opacity.
Variable opacity_pos : Opacity -> bool.

Local Abbreviation state := (Sched Img Opacity).
Local Abbreviation event := (Event Img).
Local Abbreviation web_step :=
  (step opacity_one opacity_step opacity_pos Web.onload).
Local Abbreviation web_run :=
  (run opacity_one opacity_step opacity_pos Web.onload).

Lemma web_step_bounded (s : state) (e : event) :
  length (frameQueue s) <= MAX_BUFFER_SIZE ->
  length (frameQueue (web_step s e).1) <= MAX_BUFFER_SIZE.
Proof.
  intros Hs. destruct e as [img|now ctx|i now]; simpl.
  - by apply web_onload_length.
  - destruct (displayNextFrame_outcome opacity_one now ctx s) as [|Ht|c f Ht Hf];
      simpl; [done|..]; pose proof (overflowSkip_length_le (frameQueue s)); lia.
  - destruct (fade_outcome_spec opacity_step opacity_pos i now s)
      as [Hno|o c Ho|o Ho]; simpl; [done..|].
    rewrite length_drop. lia.
Qed.

Lemma web_run_bounded (s : state) (evs : list event) :
  length (frameQueue s) <= MAX_BUFFER_SIZE ->
  length (frameQueue (web_run s evs).1) <= MAX_BUFFER_SIZE.
Proof.
  revert s. induction evs as [|e evs IH]; intros s Hs; simpl; [done|].
  pose proof (web_step_bounded s e Hs) as H1.
  destruct (web_step s e) as [s1 o1]. specialize (IH s1 H1).
  by destruct (web_run s1 evs).
Qed.

(** In the older revision the queue never holds more than
    [MAX_BUFFER_SIZE] frames, whatever the decode handler, the display loop
    and the fades do, and in which order. *)
Lemma web_queue_within_capacity t0 cur next (evs : list event) :
  length (frameQueue (web_run (mount t0 cur next) evs).1) <= MAX_BUFFER_SIZE.
Proof. apply web_run_bounded. simpl. unfold MAX_BUFFER_SIZE. lia. Qed.

(** There, a transition that begins leaves at most half the capacity in
    the queue. *)
Lemma web_skip_within_half t0 cur next (evs : list event) :
  length (overflowSkip (frameQueue (web_run (mount t0 cur next) evs).1))
    <= MAX_BUFFER_SIZE / 2.
Proof. apply overflowSkip_within_capacity, web_queue_within_capacity. Qed.

End WebBound.

(** ** The frame queue and the display loop: the claims *)

Section QueueClaims.

Context {Img Opacity : Type}.
Variable opacity_one : Opacity.
Variable opacity_step : Opacity -> Opacity.
Variable opacity_pos : Opacity -> bool.

Local Abbreviation main_step :=
  (step opacity_one opacity_step opacity_pos Main.onload).
Local Abbreviation main_run :=
  (run opacity_one opacity_step opacity_pos Main.onload).
Local Abbreviation web_run :=
  (run opacity_one opacity_step opacity_pos Web.onload).

(** In the revision with reconnection a burst of decode completions is
    queued whole. *)
Lemma main_burst_queued (s : Sched Img Opacity) (frames : list Img) :
  frameQueue (main_run s (Decoded <$> frames)).1 = frameQueue s ++ frames.
Proof. rewrite run_decodes. simpl. apply main_onload_burst. Qed.

(** C2, amended.  In the older revision, whose decode handler has the
    guard, twenty frames decoded into an empty queue with no run of the
    display loop in between leave the sixteen oldest frames in the queue,
    in arrival order; the four newest are the ones dropped. *)
Theorem web_burst_keeps_oldest t0 cur next (frames : list Img) :
  length frames = 20 ->
  frameQueue (web_run (mount t0 cur next) (Decoded <$> frames)).1
    = take 16 frames
  /\ frames = take 16 frames ++ drop 16 frames
  /\ length (drop 16 frames) = 4.
Proof.
  intros Hlen. rewrite run_decodes. simpl. rewrite web_onload_burst. simpl.
  split; [done|]. split; [by rewrite take_drop|].
  rewrite length_drop. lia.
Qed.

(** C5.  From the mounted component and after any series of decode
    completions, display ticks and fade callbacks: at most one [fade]
    closure is in flight; the event that follows begins a transition only
    if it is a display tick that finds [isTransitioning] false and no
    closure in flight; and it swaps the canvases or pops the queue only if
    it is the run of the one closure in flight that completes the
    transition. *)
Theorem one_transition_at_a_time t0 cur next
    (evs : list (Event Img)) (e : Event Img) :
  let s := (main_run (mount t0 cur next) evs).1 in
  let s' := (main_step s e).1 in
  let out := (main_step s e).2 in
  length (fades s) <= 1
  /\ (BeginFade ∈ out ->
        isTransitioning s = false /\ fades s = [] /\
        isTransitioning s' = true /\ exists now ctx, e = Tick now ctx)
  /\ (SwapCanvases ∈ out \/ PopFrame ∈ out ->
        isTransitioning s = true /\
        isTransitioning s' = false /\ fades s' = [] /\
        exists now o, e = Fade 0 now /\ fades s = [o]).
Proof.
  intros s s' out.
  assert (in_step s) as Hs by apply run_in_step, in_step_mount.
  split; [|by apply step_exclusive].
  unfold in_step in Hs. rewrite Hs. destruct (isTransitioning s); lia.
Qed.

(** Whatever the order of decode completions, display ticks and fade
    callbacks, the frames drawn for display are a subsequence of the frames
    decoded, in the order in which their decoding completed. *)
Lemma displayed_in_decode_order t0 cur next (evs : list (Event Img)) :
  displayed (main_run (mount t0 cur next) evs).2 `sublist_of` arrivals evs.
Proof.
  apply (run_displayed opacity_one opacity_step opacity_pos Main.onload
           (mount t0 cur next) evs).
  - apply main_onload_appends.
  - apply in_step_mount.
Qed.

(** X22.  In the older revision too the frames drawn are a subsequence
    of the frames decoded, in the order of decoding. *)
Lemma web_displayed_in_arrival_order t0 cur next (evs : list (Event Img)) :
  displayed (web_run (mount t0 cur next) evs).2 `sublist_of` arrivals evs.
Proof.
  apply (run_displayed opacity_one opacity_step opacity_pos Web.onload
           (mount t0 cur next) evs).
  - apply web_onload_appends.
  - apply in_step_mount.
Qed.

End QueueClaims.

(** ** From the socket to the screen *)

Section InboundFacts.

Context {Img Opacity : Type}.
Variable opacity_one : Opacity.
Variable opacity_step : Opacity -> Opacity.
Variable opacity_pos : Opacity -> bool.
Variable onload : list Img -> Img -> list Img.

Implicit Types (r : Inbound.Receiver Img Opacity)
  (evs : list (Inbound.Input Img)) (pending : list Img).

(** The receiver only feeds the scheduler: its effects are those of the
    scheduler on the events the inputs come to. *)
Lemma inbound_run_schedule r evs :
  (Inbound.run opacity_one opacity_step opacity_pos onload r evs).2
  = (run opacity_one opacity_step opacity_pos onload (Inbound.scheduler r)
       (Inbound.schedule (Inbound.loading r) evs)).2.
Proof.
  revert r. induction evs as [|e evs IH]; intros r; [done|].
  cbn [Inbound.run Inbound.schedule].
  destruct e as [img|i|i|now ctx|i now]; cbn [Inbound.step].
  - specialize (IH (Inbound.mkReceiver (Inbound.loading r ++ [img])
                      (Inbound.scheduler r))).
    destruct (Inbound.run _ _ _ _ _ evs) as [r2 o2]. simpl in *. done.
  - destruct (Inbound.loading r !! i) as [img|] eqn:Hi.
    + cbn [run].
      destruct (step _ _ _ _ (Inbound.scheduler r) (Decoded img))
        as [s1 o1].
      specialize (IH (Inbound.mkReceiver (delete i (Inbound.loading r)) s1)).
      destruct (Inbound.run _ _ _ _ _ evs) as [r2 o2].
      simpl in IH. destruct (run _ _ _ _ s1 _) as [s2 o2']. simpl in *.
      by rewrite IH.
    + specialize (IH r).
      destruct (Inbound.run _ _ _ _ r evs) as [r2 o2]. simpl in *. done.
  - specialize (IH (Inbound.mkReceiver (delete i (Inbound.loading r))
                      (Inbound.scheduler r))).
    destruct (Inbound.run _ _ _ _ _ evs) as [r2 o2]. simpl in *. done.
  - cbn [run].
    destruct (step _ _ _ _ (Inbound.scheduler r) (Tick now ctx)) as [s1 o1].
    specialize (IH (Inbound.mkReceiver (Inbound.loading r) s1)).
    destruct (Inbound.run _ _ _ _ _ evs) as [r2 o2].
    simpl in IH. destruct (run _ _ _ _ s1 _) as [s2 o2']. simpl in *.
    by rewrite IH.
  - cbn [run].
    destruct (step _ _ _ _ (Inbound.scheduler r) (Fade i now)) as [s1 o1].
    specialize (IH (Inbound.mkReceiver (Inbound.loading r) s1)).
    destruct (Inbound.run _ _ _ _ _ evs) as [r2 o2].
    simpl in IH. destruct (run _ _ _ _ s1 _) as [s2 o2']. simpl in *.
    by rewrite IH.
Qed.

(** When the images finish loading in the order of the messages, the
    frames are decoded in the order in which they arrived. *)
Lemma schedule_in_order pending evs :
  Inbound.inOrder evs = true ->
  arrivals (Inbound.schedule pending evs)
    `sublist_of` pending ++ Inbound.messages evs.
Proof.
  revert pending. induction evs as [|e evs IH]; intros pending Hord.
  { apply sublist_nil_l. }
  apply andb_prop in Hord as [He Hord].
  destruct e as [img|i|i|now ctx|i now]; cbn [Inbound.schedule].
  - etrans; [by apply IH|]. by rewrite <- app_assoc.
  - apply Nat.eqb_eq in He as ->.
    destruct pending as [|img pending]; simpl.
    + by apply (IH []).
    + apply sublist_skip. by apply IH.
  - etrans; [by apply IH|]. apply sublist_app; [apply sublist_delete|done].
  - by apply IH.
  - by apply IH.
Qed.

Lemma inbound_displayed t0 cur next evs :
  (forall q img, onload q img = q ++ [img] \/ onload q img = q) ->
  Inbound.inOrder evs = true ->
  displayed (Inbound.run opacity_one opacity_step opacity_pos onload
               (Inbound.initial t0 cur next) evs).2
    `sublist_of` Inbound.messages evs.
Proof.
  intros Hload Hord. rewrite inbound_run_schedule. simpl.
  etrans.
  - apply (run_displayed opacity_one opacity_step opacity_pos onload
             (mount t0 cur next)); [done|apply in_step_mount].
  - simpl. by apply (schedule_in_order []).
Qed.

End InboundFacts.

Section InboundClaim.

Context {Img Opacity : Type}.
Variable opacity_one : Opacity.
Variable opacity_step : Opacity -> Opacity.
Variable opacity_pos : Opacity -> bool.

(** C6, amended.  When the images finish loading in the order in which
    their messages arrived, that is when every [load] event is that of
    the oldest image still loading, then in both revisions, whatever the
    interleaving of messages, load and error events, display ticks and
    fade callbacks, the frames drawn for display are a subsequence of the
    frames that arrived on the socket, in arrival order. *)
Theorem in_order_loads_displayed_in_arrival_order t0 cur next
    (evs : list (Inbound.Input Img)) :
  Inbound.inOrder evs = true ->
  displayed (Inbound.run opacity_one opacity_step opacity_pos Main.onload
               (Inbound.initial t0 cur next) evs).2
    `sublist_of` Inbound.messages evs
  /\ displayed (Inbound.run opacity_one opacity_step opacity_pos Web.onload
                  (Inbound.initial t0 cur next) evs).2
       `sublist_of` Inbound.messages evs.
Proof.
  intros Hord. split.
  - apply inbound_displayed; [apply main_onload_appends|done].
  - apply inbound_displayed; [apply web_onload_appends|done].
Qed.

End InboundClaim.

Lemma in_order_loads_displayed_in_arrival_order_witness :
  let evs := [Inbound.Binary 1; Inbound.Binary 2; Inbound.Binary 3;
              Inbound.Loaded 0; Inbound.DisplayLoop 10 true;
              Inbound.Failed 0; Inbound.Loaded 0]
             ++ replicate 21 (Inbound.FadeLoop 0 20)
             ++ [Inbound.DisplayLoop 30 true] in
  Inbound.inOrder evs = true
  /\ displayed (Inbound.run decimal_one decimal_step decimal_pos Main.onload
                  (Inbound.initial 0 (Some FirstCanvas) (Some SecondCanvas))
                  evs).2 = [1; 3]
  /\ displayed (Inbound.run decimal_one decimal_step decimal_pos Main.onload
                  (Inbound.initial 0 (Some FirstCanvas) (Some SecondCanvas))
                  evs).2 `sublist_of` Inbound.messages evs.
Proof.
  intros evs. split; [vm_compute; reflexivity|].
  split; [vm_compute; reflexivity|].
  destruct (in_order_loads_displayed_in_arrival_order decimal_one decimal_step
              decimal_pos 0%Z (Some FirstCanvas) (Some SecondCanvas) evs)
    as [Hmain _]; [reflexivity|exact Hmain].
Defined.

(** C6 as stated fails.  Two frames arrive in the order 1, 2; the image of
    the second finishes loading first, so it is queued and drawn first,
    and the first frame is drawn after it. *)
Lemma later_frame_displayed_first :
  let evs := [Inbound.Binary 1; Inbound.Binary 2; Inbound.Loaded 1;
              Inbound.DisplayLoop 10 true; Inbound.Loaded 0]
             ++ replicate 21 (Inbound.FadeLoop 0 20)
             ++ [Inbound.DisplayLoop 30 true] in
  let shown :=
    displayed (Inbound.run decimal_one decimal_step decimal_pos Main.onload
                 (Inbound.initial 0 (Some FirstCanvas) (Some SecondCanvas))
                 evs).2 in
  Inbound.messages evs = [1; 2]
  /\ shown = [2; 1]
  /\ ~ shown `sublist_of` Inbound.messages evs.
Proof.
  intros evs shown.
  assert (shown = [2; 1]) as Hs by (vm_compute; reflexivity).
  assert (Inbound.messages evs = [1; 2]) as Hm by (vm_compute; reflexivity).
  split; [exact Hm|]. split; [exact Hs|].
  rewrite Hs, Hm. clear.
  intros H.
  repeat match goal with
         | H : _ `sublist_of` _ |- _ => inversion H; clear H; subst
         end.
Qed.

Lemma web_burst_keeps_oldest_witness :
  length (seq 1 20) = 20 /\
  frameQueue (run decimal_one decimal_step decimal_pos Web.onload mounted
                (Decoded <$> seq 1 20)).1 = seq 1 16.
Proof.
  split; [reflexivity|].
  apply (web_burst_keeps_oldest decimal_one decimal_step decimal_pos
           0%Z (Some FirstCanvas) (Some SecondCanvas) (seq 1 20)).
  reflexivity.
Defined.

(** C1, a defect of the revision with reconnection.  Its decode handler
    pushes without looking at the length of the queue: seventeen decode
    completions in a row leave seventeen frames queued, one more than
    [MAX_BUFFER_SIZE]. *)
Theorem main_queue_exceeds_capacity :
  let s := (run decimal_one decimal_step decimal_pos Main.onload mounted
              (Decoded <$> seq 1 17)).1 in
  frameQueue s = seq 1 17 /\ MAX_BUFFER_SIZE < length (frameQueue s).
Proof. split; [reflexivity|]. vm_compute. lia. Qed.

(** C2 as stated fails in both revisions: after twenty decode completions
    the queue is not the sixteen newest frames.  The older revision holds
    the sixteen oldest, the revision with reconnection all twenty. *)
Lemma newest_sixteen_not_kept :
  frameQueue (run decimal_one decimal_step decimal_pos Web.onload mounted
                (Decoded <$> seq 1 20)).1 <> drop 4 (seq 1 20)
  /\ frameQueue (run decimal_one decimal_step decimal_pos Main.onload mounted
                   (Decoded <$> seq 1 20)).1 <> drop 4 (seq 1 20).
Proof. split; vm_compute; discriminate. Qed.

(** C3, the same defect seen from the display loop.  With twenty frames
    queued, the tick that begins a transition discards the ten oldest and
    keeps the ten newest in order, which is more than
    [MAX_BUFFER_SIZE / 2 + 1]. *)
Theorem main_skip_exceeds_half :
  let r := run decimal_one decimal_step decimal_pos Main.onload mounted
             ((Decoded <$> seq 1 20) ++ [Tick 0 true]) in
  frameQueue r.1 = seq 11 10
  /\ isTransitioning r.1 = true
  /\ MAX_BUFFER_SIZE / 2 + 1 < length (frameQueue r.1).
Proof. split; [reflexivity|]. split; [reflexivity|]. vm_compute. lia. Qed.

(** Frames can be left out: with ten frames queued the display loop skips
    five and draws the sixth. *)
Example displayed_can_be_strict :
  displayed (run decimal_one decimal_step decimal_pos Main.onload mounted
               ((Decoded <$> seq 1 10) ++ [Tick 0 true])).2 = [6].
Proof. reflexivity. Qed.

(** A whole transition: the frame is drawn, the closure steps twenty times
    and the twenty-first run swaps, pops and clears the flag. *)
Example one_full_transition :
  let r := run decimal_one decimal_step decimal_pos Main.onload mounted
             ([Decoded 7; Tick 0 true] ++ replicate 21 (Fade 0 40)) in
  frameQueue r.1 = [] /\ isTransitioning r.1 = false /\ fades r.1 = []
  /\ currentCanvas r.1 = Some SecondCanvas
  /\ lastTransitionTime r.1 = 40%Z /\ displayed r.2 = [7].
Proof. vm_compute. repeat split. Qed.

Lemma one_transition_at_a_time_witness :
  let idle := (run decimal_one decimal_step decimal_pos Main.onload mounted
                 [Decoded 7]).1 in
  let busy := (run decimal_one decimal_step decimal_pos Main.onload mounted
                 ([Decoded 7; Tick 0 true] ++ replicate 20 (Fade 0 40))).1 in
  (isTransitioning idle = false /\ fades idle = [])
  /\ (isTransitioning busy = true /\
      fades (step decimal_one decimal_step decimal_pos Main.onload busy
               (Fade 0 40)).1 = []).
Proof.
  split.
  - pose proof (one_transition_at_a_time decimal_one decimal_step decimal_pos
                  0%Z (Some FirstCanvas) (Some SecondCanvas)
                  [Decoded 7] (Tick 0 true)) as (_ & Hbegin & _).
    destruct Hbegin as (Hidle & Hnone & _).
    + vm_compute. do 2 right. left.
    + split; [exact Hidle|exact Hnone].
  - pose proof (one_transition_at_a_time decimal_one decimal_step decimal_pos
                  0%Z (Some FirstCanvas) (Some SecondCanvas)
                  ([Decoded 7; Tick 0 true] ++ replicate 20 (Fade 0 40))
                  (Fade 0 40)) as (_ & _ & Hswap).
    destruct Hswap as (Hbusy & _ & Hdone & _).
    + left. vm_compute. left.
    + split; [exact Hbusy|exact Hdone].
Defined.

(** ** Reconnection *)

Section Reconnection.

Import Session.
Implicit Types (c : Conn) (k : nat).

Lemma onclose_counts c : reconnectAttempts (onclose c).1 = S (reconnectAttempts c).
Proof. reflexivity. Qed.

Lemma onopen_resets c : reconnectAttempts (onopen c).1 = 0.
Proof. reflexivity. Qed.

Lemma after_closes c k :
  reconnectAttempts (after c (replicate k Close)) = reconnectAttempts c + k.
Proof.
  revert c. induction k as [|k IH]; intros c; simpl.
  - lia.
  - unfold after in *. simpl. rewrite IH. simpl. lia.
Qed.

Lemma after_open_closes c k :
  reconnectAttempts (after c (Open :: replicate k Close)) = k.
Proof. unfold after. simpl. apply (after_closes (mkConn 0 Connected)). Qed.

Lemma onclose_schedules c :
  (Z.of_nat (reconnectAttempts c) < MAX_RECONNECT_ATTEMPTS)%Z ->
  (onclose c).2 = [ScheduleReconnect (reconnectDelay (reconnectAttempts c))].
Proof.
  intros Hc. unfold onclose. simpl snd.
  destruct (Z.leb_spec (Z.of_nat (S (reconnectAttempts c))) MAX_RECONNECT_ATTEMPTS);
    [done|lia].
Qed.

Lemma onclose_escalates c :
  (MAX_RECONNECT_ATTEMPTS < Z.of_nat (reconnectAttempts (onclose c).1))%Z ->
  (onclose c).2 = [ReloadPage].
Proof.
  intros Hc. unfold onclose in *. simpl in *.
  destruct (Z.leb_spec (Z.of_nat (S (reconnectAttempts c))) MAX_RECONNECT_ATTEMPTS);
    [lia|done].
Qed.

(** The delays grow as 1 s, 2 s, 4 s, 8 s, 16 s and stay at 30 s from the
    sixth close on. *)
Lemma reconnectDelay_capped k : 5 <= k -> reconnectDelay k = MAX_RECONNECT_DELAY.
Proof.
  intros Hk. unfold reconnectDelay, INITIAL_RECONNECT_DELAY, MAX_RECONNECT_DELAY.
  assert (2 ^ 5 <= 2 ^ Z.of_nat k)%Z by (apply Z.pow_le_mono_r; lia).
  change (2 ^ 5)%Z with 32%Z in *. lia.
Qed.

(** C4, amended.  After an open and [k] closes in a row the counter is
    [k].  For [k] below [MAX_RECONNECT_ATTEMPTS] the next close raises the
    counter to [k + 1] and schedules a reconnection after
    [min(INITIAL_RECONNECT_DELAY * 2^k, MAX_RECONNECT_DELAY)]; an open sets
    the counter back to [0]; and a close that raises the counter above
    [MAX_RECONNECT_ATTEMPTS] schedules nothing and reloads the page. *)
Theorem reconnect_backoff c k :
  (0 <= Z.of_nat k < MAX_RECONNECT_ATTEMPTS)%Z ->
  let ck := after c (Open :: replicate k Close) in
  reconnectAttempts ck = k
  /\ reconnectAttempts (onclose ck).1 = S k
  /\ scheduled (onclose ck).2
       = Some (Z.min (INITIAL_RECONNECT_DELAY * 2 ^ Z.of_nat k)
                     MAX_RECONNECT_DELAY)
  /\ reloads (onclose ck).2 = false
  /\ reconnectAttempts (onopen (onclose ck).1).1 = 0
  /\ (forall c',
        (MAX_RECONNECT_ATTEMPTS < Z.of_nat (reconnectAttempts (onclose c').1))%Z ->
        scheduled (onclose c').2 = None /\ reloads (onclose c').2 = true).
Proof.
  intros Hk ck.
  assert (reconnectAttempts ck = k) as Hck by apply after_open_closes.
  split; [done|]. split; [by rewrite onclose_counts, Hck|].
  rewrite onclose_schedules by (rewrite Hck; lia). rewrite Hck.
  do 3 (split; [reflexivity|]).
  intros c' Hc'. by rewrite onclose_escalates.
Qed.

End Reconnection.

Lemma reconnect_backoff_witness :
  (0 <= Z.of_nat 3 < MAX_RECONNECT_ATTEMPTS)%Z /\
  Session.scheduled
    (Session.onclose
       (Session.after (Session.mkConn 0 Session.Disconnected)
          (Session.Open :: replicate 3 Session.Close))).2 = Some 8000%Z.
Proof.
  split; [unfold MAX_RECONNECT_ATTEMPTS; lia|].
  apply (reconnect_backoff (Session.mkConn 0 Session.Disconnected) 3).
  unfold MAX_RECONNECT_ATTEMPTS; lia.
Defined.

(** C4 as stated fails at [k = MAX_RECONNECT_ATTEMPTS]: after an open and
    ten closes the counter is ten, and the close that follows raises it to
    eleven, schedules no reconnection and reloads the page. *)
Lemma no_reconnect_after_last_attempt :
  let c10 := Session.after (Session.mkConn 0 Session.Disconnected)
               (Session.Open :: replicate 10 Session.Close) in
  Session.reconnectAttempts c10 = 10
  /\ Session.scheduled (Session.onclose c10).2
       <> Some (Z.min (INITIAL_RECONNECT_DELAY * 2 ^ 10) MAX_RECONNECT_DELAY)
  /\ Session.onclose c10 = (Session.mkConn 11 Session.Disconnected, [Session.ReloadPage]).
Proof. vm_compute. repeat split. discriminate. Qed.

(** ** Transcription *)

Section Transcription.

Implicit Types (r : Render) (p : Page) (b : Blob) (t : jsstring).

(** A new entry is live at the time it is made, so [addTranscript] always
    ends with it. *)
Lemma addTranscript_adds seen t now p :
  exists older, transcripts (addTranscript seen t now p)
                = older ++ [mkEntry t now seen].
Proof.
  unfold addTranscript. simpl. rewrite List.filter_app. simpl.
  unfold live at 2. simpl. rewrite Z.sub_diag. by eexists.
Qed.

Lemma addTranscript_keeps_credential seen t now p :
  serverPassword (addTranscript seen t now p) = serverPassword p
  /\ isAuthenticated (addTranscript seen t now p) = isAuthenticated p.
Proof. done. Qed.

(** A [transcribe] whose closure holds no password returns at once. *)
Lemma transcribe_without_password r b reply now p :
  truthy (seenPassword r) = false ->
  Audio.transcribe r b reply now p = (p, []).
Proof. intros H. unfold Audio.transcribe. by rewrite H. Qed.

(** On a 401 the credential and the authentication state are reset and
    nothing else is done for the segment. *)
Lemma transcribe_unauthorized r b body now p :
  truthy (seenPassword r) = true ->
  Audio.transcribe r b (Response 401 body) now p
    = (invalidate p, [Upload (seenPassword r) b])
  /\ serverPassword (invalidate p) = None
  /\ isAuthenticated (invalidate p) = false
  /\ transcripts (invalidate p) = transcripts p.
Proof. intros H. unfold Audio.transcribe. by rewrite H. Qed.

(** In the revision with reconnection the text of a reply that is not a
    401 becomes an entry exactly when it is a non-empty string; it is not
    trimmed. *)
Lemma transcribe_entry r b status t now p :
  truthy (seenPassword r) = true -> status <> 401%Z ->
  (Audio.transcribe r b (Response status (Some (Some t))) now p).1
    = if truthy (Some t) then addTranscript (seenTotal r) t now p else p.
Proof.
  intros H Hs. unfold Audio.transcribe. rewrite H. simpl.
  destruct (Z.eqb_spec status 401); [done|]. by destruct t.
Qed.

(** X23.  In the older revision the text of an accepted reply becomes an
    entry exactly when something is left after trimming, and the entry
    holds the trimmed text. *)
Lemma web_onstop_entry seen status t now p :
  audioChunks p <> [] -> (200 <= status <= 299)%Z ->
  (WebAudio.onstop seen (Response status (Some (Some t))) now p).1
    = if truthy (Some (trim t))
      then addTranscript seen (trim t) now (setChunks [] p)
      else setChunks [] p.
Proof.
  intros Hc Hs. unfold WebAudio.onstop.
  destruct (audioChunks p) as [|c cs]; [done|].
  destruct (Z.leb_spec 200 status); [|lia].
  destruct (Z.leb_spec status 299); [|lia]. simpl.
  destruct t as [|u t]; [done|]. by destruct (trim (u :: t)).
Qed.

(** A recording cycle, once started, stays armed with the render it was
    started in. *)
Lemma recorders_kept p (e : Audio.Event) :
  recorders p `prefix_of` recorders (Audio.step p e).1.
Proof.
  assert (forall was mic p', recorders p' `prefix_of`
            recorders (Audio.audioEffect was mic p')) as Heff.
  { intros was mic p'. unfold Audio.audioEffect.
    destruct (eqb _ _); [done|]. destruct (negb _); [done|].
    destruct mic; [|done]. by apply prefix_app_r. }
  destruct e as [pw mic| |size|i reply now]; simpl.
  - apply (Heff _ _ (Audio.handleAuthenticated pw p)).
  - done.
  - unfold Audio.ondataavailable. by destruct (_ <? _).
  - destruct (recorders p !! i) as [r|]; [|done].
    destruct (Audio.onstop r reply now p) as [p' out] eqn:Hstop. simpl.
    etrans; [|apply Heff].
    unfold Audio.onstop in Hstop.
    destruct (audioChunks p); [by injection Hstop as <- <-|].
    destruct (Audio.transcribe _ _ _ _ _) as [p2 o2] eqn:Ht.
    injection Hstop as <- <-. unfold Audio.transcribe in Ht.
    destruct (negb _); [by injection Ht as <- <-|].
    destruct reply as [|status body]; [by injection Ht as <- <-|].
    destruct (_ =? _)%Z; [by injection Ht as <- <-|].
    destruct body as [data_text|]; [|by injection Ht as <- <-].
    destruct (truthy data_text); by injection Ht as <- <-.
Qed.

(** Its stop handler uploads with the password of that render, whatever
    [serverPassword] is by then. *)
Lemma armed_cycle_uploads p i r reply now :
  recorders p !! i = Some r -> truthy (seenPassword r) = true ->
  audioChunks p <> [] ->
  Upload (seenPassword r) (audioChunks p)
    ∈ (Audio.step p (Audio.Stop i reply now)).2.
Proof.
  intros Hi Hpw Hchunks. simpl. rewrite Hi.
  unfold Audio.onstop. destruct (audioChunks p) as [|c cs] eqn:Hc; [done|].
  unfold Audio.transcribe. rewrite Hpw. simpl.
  destruct reply as [|status body]; simpl.
  - do 2 right. left.
  - destruct (_ =? _)%Z; simpl; [do 2 right; left|].
    destruct body as [data_text|]; simpl; [|do 2 right; left].
    destruct (truthy data_text); simpl; do 2 right; left.
Qed.

(** C10.  When the stop handler finds no buffered chunk it returns at
    once: the page is unchanged and nothing is done, so no blob is built,
    nothing is uploaded and no entry is made. *)
Theorem onstop_without_chunks r reply now p :
  audioChunks p = [] ->
  Audio.onstop r reply now p = (p, []).
Proof. intros H. unfold Audio.onstop. by rewrite H. Qed.

End Transcription.

Lemma onstop_without_chunks_witness :
  audioChunks Audio.initial = [] /\
  Audio.onstop (mkRender (Some [112; 119]%N) 0) (Response 200 (Some (Some [104; 105]%N)))
    1000 Audio.initial = (Audio.initial, []).
Proof.
  split; [reflexivity|].
  apply (onstop_without_chunks (mkRender (Some [112; 119]%N) 0)
           (Response 200 (Some (Some [104; 105]%N))) 1000 Audio.initial).
  reflexivity.
Defined.

(** C7, a defect.  The recording cycle keeps the [transcribe] of the render
    in which it was started, and with it the password of that render.
    After a 401 has reset [serverPassword] to [null], the next segment of
    the same cycle is uploaded all the same, with the password that was
    just refused. *)
Theorem stale_credential_still_uploads :
  let pw : jsstring := [112; 119]%N in
  let hi : jsstring := [104; 105]%N in
  let first := [Audio.Authenticated pw true; Audio.RecordingInterval;
                Audio.DataAvailable 100;
                Audio.Stop 0 (Response 401 None) 10000] in
  let second := [Audio.RecordingInterval; Audio.DataAvailable 100;
                 Audio.Stop 0 (Response 200 (Some (Some hi))) 20000] in
  let p1 := (Audio.run Audio.initial first).1 in
  let r2 := Audio.run p1 second in
  serverPassword p1 = None /\ isAuthenticated p1 = false
  /\ transcripts p1 = []
  /\ r2.2 = [[]; []; [NewBlob [100]; PlayAudio [100]; Upload (Some pw) [100]]]
  /\ serverPassword r2.1 = None
  /\ transcripts r2.1 = [mkEntry hi 20000 0].
Proof. vm_compute. repeat split. Qed.

(** C8, a defect of the revision with reconnection.  A reply whose text is
    a single space becomes an entry, although nothing is left of it after
    trimming. *)
Theorem blank_text_becomes_entry :
  let r := mkRender (Some [112; 119]%N) 0 in
  let reply := Response 200 (Some (Some [32%N])) in
  trim [32%N] = []
  /\ transcripts (Audio.transcribe r [100] reply 10000 Audio.initial).1
       = [mkEntry [32%N] 10000 0].
Proof. vm_compute. repeat split. Qed.

(** The older revision makes no entry from the same reply. *)
Example web_blank_text_no_entry :
  transcripts
    (WebAudio.onstop 0 (Response 200 (Some (Some [32%N]))) 10000
       (setChunks [100] Audio.initial)).1 = [].
Proof. reflexivity. Qed.

(** ** Outbound pipeline *)

Section Sending.

Import Outbound.
Implicit Types (s : Pipe) (evs : list Event).

(** The freshness gate: a tick that comes less than [FRAME_INTERVAL] after
    the recorded time of the last send does nothing. *)
Lemma sendFrame_gate connected now video s :
  (now - lastFrameTime s < FRAME_INTERVAL)%Z ->
  sendFrame connected now video s = (s, []).
Proof.
  intros H. unfold sendFrame.
  by destruct (Z.ltb_spec (now - lastFrameTime s) FRAME_INTERVAL); [|lia].
Qed.

(** A frame whose encoding ends while the socket is not open is dropped:
    it leaves the pipeline and nothing is kept for later. *)
Lemma blobReady_not_open i blob socket s now :
  encoding s !! i = Some now -> socket <> Some OPEN ->
  blobReady i blob socket s
    = (mkPipe (lastFrameTime s) (delete i (encoding s)) (buffering s), []).
Proof.
  intros Hi Hsock. unfold blobReady. rewrite Hi.
  destruct blob; [|done]. by destruct socket as [[]|].
Qed.

(** Nothing is transmitted except by the continuation of a frame that
    passed the gate and found the socket open. *)
Lemma step_sent s e now t :
  Sent now t ∈ (step s e).2 ->
  exists i, e = BufferReady i (Some OPEN) t /\ buffering s !! i = Some now.
Proof.
  destruct e as [n video|i blob socket|i socket t']; simpl.
  - unfold sendFrame. destruct (_ <? _)%Z; [intros H; members H|].
    destruct (video && true); intros H; members H.
  - unfold blobReady. destruct (encoding s !! i); [|intros H; members H].
    destruct blob; [destruct socket as [[]|]|]; intros H; members H.
  - unfold bufferReady. destruct (buffering s !! i) as [n|] eqn:Hi;
      [|intros H; members H].
    destruct socket as [[]|]; intros H; try (members H).
    apply list_elem_of_singleton in H. injection H as -> ->. by exists i.
Qed.

Lemma fresh_initial : fresh initial.
Proof. split; [simpl; lia|]. intros now H. members H. Qed.

Lemma spaced_earlier last last' nows :
  (last <= last')%Z -> spaced last' nows -> spaced last nows.
Proof. destruct nows as [|now nows]; simpl; [done|]. intros ? [? ?]. split; [lia|done]. Qed.

Lemma sent_app (o1 o2 : list Out) : sent (o1 ++ o2) = sent o1 ++ sent o2.
Proof. apply omap_app. Qed.

(** One frame in flight, taken out of either list, leaves none. *)
Lemma fresh_delete_encoding s i now :
  fresh s -> encoding s !! i = Some now ->
  encoding s = [now] /\ buffering s = [] /\ i = 0
  /\ (lastFrameTime s + FRAME_INTERVAL <= now)%Z.
Proof.
  intros [Hlen Hin] Hi.
  assert (lastFrameTime s + FRAME_INTERVAL <= now)%Z
    by (apply Hin, elem_of_app; left; by eapply list_elem_of_lookup_2).
  rewrite length_app in Hlen.
  destruct (encoding s) as [|n [|??]], (buffering s); simpl in *; try lia;
    try (by rewrite lookup_nil in Hi).
  by destruct i; simplify_eq/=.
Qed.

Lemma fresh_delete_buffering s i now :
  fresh s -> buffering s !! i = Some now ->
  buffering s = [now] /\ encoding s = [] /\ i = 0
  /\ (lastFrameTime s + FRAME_INTERVAL <= now)%Z.
Proof.
  intros [Hlen Hin] Hi.
  assert (lastFrameTime s + FRAME_INTERVAL <= now)%Z
    by (apply Hin, elem_of_app; right; by eapply list_elem_of_lookup_2).
  rewrite length_app in Hlen.
  destruct (buffering s) as [|n [|??]], (encoding s); simpl in *; try lia;
    try (by rewrite lookup_nil in Hi).
  by destruct i; simplify_eq/=.
Qed.

(** X24.  When no two encodings overlap, the frames that go out were
    captured at least [FRAME_INTERVAL] apart. *)
Lemma serial_spaced evs s :
  fresh s -> serial s evs ->
  spaced (lastFrameTime s) (sent (run s evs).2).*1.
Proof.
  revert s. induction evs as [|e evs IH]; intros s Hs Hser; simpl; [done|].
  destruct Hser as [He Hser].
  destruct (step s e) as [s1 o1] eqn:Hstep. simpl in Hser.
  specialize (IH s1). destruct (run s1 evs) as [s2 o2]. simpl in IH |- *.
  rewrite sent_app, fmap_app.
  destruct e as [now video|i blob socket|i socket t]; simpl in Hstep.
  - destruct He as [Henc Hbuf]. unfold sendFrame in Hstep.
    destruct (Z.ltb_spec (now - lastFrameTime s) FRAME_INTERVAL);
      [injection Hstep as <- <-; by apply IH|].
    destruct (video && true); injection Hstep as <- <-; simpl;
      [|by apply IH].
    apply IH; [|done]. rewrite Henc, Hbuf. split; simpl; [lia|].
    intros n ->%list_elem_of_singleton. lia.
  - unfold blobReady in Hstep.
    destruct (encoding s !! i) as [now|] eqn:Hi;
      [|injection Hstep as <- <-; by apply IH].
    destruct (fresh_delete_encoding s i now Hs Hi) as (Henc & Hbuf & -> & Hnow).
    rewrite Henc, Hbuf in Hstep. simpl in Hstep.
    destruct blob; [destruct socket as [[]|]|];
      injection Hstep as <- <-; simpl; apply IH; try done;
      (split; simpl; [lia|]); intros n Hn;
      first [apply list_elem_of_singleton in Hn as ->; lia|members Hn].
  - unfold bufferReady in Hstep.
    destruct (buffering s !! i) as [now|] eqn:Hi;
      [|injection Hstep as <- <-; by apply IH].
    destruct (fresh_delete_buffering s i now Hs Hi) as (Hbuf & Henc & -> & Hnow).
    rewrite Henc, Hbuf in Hstep. simpl in Hstep.
    assert (forall last, fresh (mkPipe last [] [])) as Hempty.
    { intros last. split; simpl; [lia|]. intros n Hn. members Hn. }
    destruct socket as [[]|]; injection Hstep as <- <-; simpl.
    + by apply IH.
    + split; [done|]. by apply IH.
    + eapply spaced_earlier; [|by apply IH]. simpl. unfold FRAME_INTERVAL in *. lia.
    + eapply spaced_earlier; [|by apply IH]. simpl. unfold FRAME_INTERVAL in *. lia.
    + eapply spaced_earlier; [|by apply IH]. simpl. unfold FRAME_INTERVAL in *. lia.
Qed.

End Sending.

(** C9, a defect.  [lastFrameTime] is written when the encoded frame goes
    out, not when the tick passes the gate.  Two ticks 125 ms apart that
    both come before the first encoding is done both pass the gate, and
    both frames are transmitted, one millisecond apart. *)
Theorem two_frames_within_interval :
  let evs := [Outbound.SendFrame 1000 true; Outbound.SendFrame 1125 true;
              Outbound.BlobReady 0 true (Some Outbound.OPEN);
              Outbound.BlobReady 0 true (Some Outbound.OPEN);
              Outbound.BufferReady 0 (Some Outbound.OPEN) 1130;
              Outbound.BufferReady 0 (Some Outbound.OPEN) 1131] in
  Outbound.sent (Outbound.run Outbound.initial evs).2
    = [(1000, 1130); (1125, 1131)]%Z
  /\ (1125 - 1000 < FRAME_INTERVAL)%Z /\ (1131 - 1130 < FRAME_INTERVAL)%Z.
Proof. vm_compute. repeat split. Qed.

(** ** The first page *)

Section LegacyFacts.

Context {Img : Type}.
Implicit Types (s : Legacy.Viewer Img) (evs : list (Legacy.Event Img)).

Lemma legacy_run_conserves s evs :
  (Legacy.run s evs).2 ++ Legacy.queue (Legacy.run s evs).1
    = Legacy.queue s ++ Legacy.arrivals evs.
Proof.
  revert s. induction evs as [|e evs IH]; intros s; simpl.
  - by rewrite app_nil_r.
  - destruct (Legacy.step s e) as [s1 o1] eqn:Hstep.
    specialize (IH s1). destruct (Legacy.run s1 evs) as [s2 o2].
    simpl in *. rewrite <- app_assoc, IH. clear IH.
    destruct e as [img|now canvas ctx]; simpl in Hstep.
    + injection Hstep as <- <-. simpl. by rewrite <- app_assoc.
    + destruct (Legacy.looping s); [|by injection Hstep as <- <-].
      unfold Legacy.renderFrame in Hstep.
      destruct canvas; [destruct ctx|]; simpl in Hstep;
        try (by injection Hstep as <- <-).
      destruct (Legacy.queue s) as [|img q] eqn:Hq;
        injection Hstep as <- <-; simpl; by rewrite ?Hq.
Qed.

(** X1.  On the first page no decoded frame is lost or reordered: at any
    moment the frames drawn so far followed by the frames still queued are
    the frames decoded so far, in the order of decoding. *)
Theorem legacy_every_frame_once evs :
  (Legacy.run Legacy.initial evs).2
    ++ Legacy.queue (Legacy.run Legacy.initial evs).1
  = Legacy.arrivals evs.
Proof. apply (legacy_run_conserves Legacy.initial). Qed.

Lemma legacy_stopped_run s evs :
  Legacy.looping s = false ->
  Legacy.run s evs
    = (Legacy.mkViewer (Legacy.queue s ++ Legacy.arrivals evs)
         (Legacy.lastWarpedFrameRenderTime s) false, []).
Proof.
  revert s. induction evs as [|e evs IH]; intros s Hs; simpl.
  - rewrite app_nil_r. destruct s; simpl in *; by subst.
  - destruct e as [img|now canvas ctx]; simpl.
    + rewrite IH by done. simpl. by rewrite <- app_assoc.
    + rewrite Hs. by rewrite IH.
Qed.

(** X2.  A run of [renderFrame] that finds no canvas, or no 2d context,
    ends the loop for good: whatever happens afterwards nothing is drawn
    any more, and every frame decoded from then on stays in the queue. *)
Theorem legacy_loop_never_resumes s now canvas ctx evs :
  Legacy.looping s = true -> canvas && ctx = false ->
  let s1 := (Legacy.step s (Legacy.Frame now canvas ctx)).1 in
  (Legacy.step s (Legacy.Frame now canvas ctx)).2 = []
  /\ (Legacy.run s1 evs).2 = []
  /\ Legacy.queue (Legacy.run s1 evs).1
       = Legacy.queue s ++ Legacy.arrivals evs.
Proof.
  intros Hs Hc. simpl. rewrite Hs. unfold Legacy.renderFrame.
  destruct canvas; [destruct ctx; [done|]|]; simpl;
    (split; [done|]); by rewrite legacy_stopped_run.
Qed.

End LegacyFacts.

Lemma legacy_loop_never_resumes_witness :
  (Legacy.looping (Legacy.mkViewer [1; 2] None true) = true
   /\ false && true = false)
  /\ Legacy.queue
       (Legacy.run (Legacy.step (Legacy.mkViewer [1; 2] None true)
                      (Legacy.Frame 10 false true)).1
          [Legacy.Decoded 3; Legacy.Frame 20 true true]).1 = [1; 2; 3].
Proof.
  split; [split; reflexivity|].
  apply (legacy_loop_never_resumes (Legacy.mkViewer [1; 2] None true)
           10 false true [Legacy.Decoded 3; Legacy.Frame 20 true true]);
    reflexivity.
Defined.

(** ** The caption store *)

Section CaptionFacts.

Implicit Types (p : Page) (evs : list Captions.Event) (e : Captions.Event).

Lemma live_spec now t :
  live now t = true <-> (now - timestamp t < SCROLL_DURATION * 1000)%Z.
Proof. unfold live. apply Z.ltb_lt. Qed.

Lemma captions_step_fresh p e t :
  In t (transcripts (Captions.step p e)) ->
  (Captions.time e - timestamp t < SCROLL_DURATION * 1000)%Z.
Proof.
  destruct e as [seen txt now|now]; simpl;
    intros [_ H]%List.filter_In; by apply live_spec.
Qed.

(** X3.  Right after any operation on the store, be it an addition or a
    purge, every caption in it is younger than [SCROLL_DURATION] seconds
    at the time of that operation. *)
Theorem captions_fresh_after_event p evs e t :
  In t (transcripts (Captions.run p (evs ++ [e]))) ->
  (Captions.time e - timestamp t < SCROLL_DURATION * 1000)%Z.
Proof.
  unfold Captions.run. rewrite foldl_app. simpl. apply captions_step_fresh.
Qed.

Lemma captions_step_keeps p e t :
  In t (transcripts p) ->
  (Captions.time e - timestamp t < SCROLL_DURATION * 1000)%Z ->
  In t (transcripts (Captions.step p e)).
Proof.
  intros Hin Hyoung.
  destruct e as [seen txt now|now]; simpl in *; apply List.filter_In;
    (split; [|by apply live_spec]); [apply List.in_or_app; by left|done].
Qed.

(** X4.  A caption stays in the store as long as every operation on the
    store comes less than [SCROLL_DURATION] seconds after it was added. *)
Theorem caption_survives_while_young p seen txt now evs :
  Forall (fun e => (Captions.time e - now < SCROLL_DURATION * 1000)%Z) evs ->
  In (mkEntry txt now seen)
     (transcripts (Captions.run (addTranscript seen txt now p) evs)).
Proof.
  intros Hevs.
  assert (In (mkEntry txt now seen)
             (transcripts (addTranscript seen txt now p))) as Hin.
  { destruct (addTranscript_adds seen txt now p) as [older ->].
    apply List.in_or_app. right. by left. }
  revert Hin. generalize (addTranscript seen txt now p).
  induction Hevs as [|e evs He Hevs IH]; intros q Hin; [done|].
  apply IH. by apply captions_step_keeps.
Qed.

(** X5.  Purging twice is purging once at the later time: a purge at
    [t2] undoes nothing and needs nothing of an earlier purge at [t1]. *)
Theorem purge_absorbs_earlier t1 t2 p :
  (t1 <= t2)%Z ->
  Captions.purge t2 (Captions.purge t1 p) = Captions.purge t2 p.
Proof.
  intros Ht. unfold Captions.purge. simpl. f_equal.
  induction (transcripts p) as [|t l IH]; simpl; [done|].
  destruct (live t1 t) eqn:H1; simpl; rewrite IH; [done|].
  destruct (live t2 t) eqn:H2; [|done].
  apply live_spec in H2. apply not_true_iff_false in H1.
  rewrite live_spec in H1. lia.
Qed.

End CaptionFacts.

Lemma captions_fresh_after_event_witness :
  In (mkEntry [104; 105]%N 1000 0)
     (transcripts (Captions.run Audio.initial
                     ([Captions.Add 0 [104; 105]%N 1000] ++ [Captions.Purge 2000])))
  /\ (2000 - 1000 < SCROLL_DURATION * 1000)%Z.
Proof.
  split; [left; reflexivity|].
  apply (captions_fresh_after_event Audio.initial
           [Captions.Add 0 [104; 105]%N 1000] (Captions.Purge 2000)
           (mkEntry [104; 105]%N 1000 0)).
  left. reflexivity.
Defined.

Lemma caption_survives_while_young_witness :
  In (mkEntry [104; 105]%N 1000 0)
     (transcripts
        (Captions.run (addTranscript 0 [104; 105]%N 1000 Audio.initial)
           [Captions.Purge 2000; Captions.Add 0 [111]%N 5999])).
Proof.
  apply (caption_survives_while_young Audio.initial 0 [104; 105]%N 1000
           [Captions.Purge 2000; Captions.Add 0 [111]%N 5999]).
  repeat constructor.
Defined.

Lemma purge_absorbs_earlier_witness :
  Captions.purge 7000 (Captions.purge 3000 (addTranscript 0 [104; 105]%N 1000 Audio.initial))
  = Captions.purge 7000 (addTranscript 0 [104; 105]%N 1000 Audio.initial).
Proof.
  apply (purge_absorbs_earlier 3000 7000). lia.
Defined.

(** ** The camera list *)

Section DeviceFacts.

Import Devices.
Implicit Types (s : Picker) (devices : list MediaDeviceInfo).

Lemma toDeviceInfo_label d : label (toDeviceInfo d) <> [].
Proof. unfold toDeviceInfo. simpl. by destruct (mediaLabel d). Qed.

(** X6.  After a successful enumeration the list offered to the user holds
    exactly the video inputs, in the order of the enumeration and under
    their own ids, and none of them has an empty label. *)
Theorem getVideoDevices_lists_cameras seen devices s :
  deviceId <$> videoDevices (getVideoDevices seen (Some devices) s)
    = mediaId <$> List.filter isVideo devices
  /\ Forall (fun d => label d <> [])
            (videoDevices (getVideoDevices seen (Some devices) s)).
Proof.
  assert (videoDevices (getVideoDevices seen (Some devices) s)
          = toDeviceInfo <$> List.filter isVideo devices) as ->.
  { unfold getVideoDevices.
    destruct (toDeviceInfo <$> List.filter isVideo devices) eqn:H; [done|].
    by destruct (negb _). }
  split.
  - rewrite <- list_fmap_compose. by apply list_fmap_ext.
  - apply Forall_fmap, Forall_true. intros d. apply toDeviceInfo_label.
Qed.

Lemma getVideoDevices_selected seen devices s :
  getVideoDevices seen None s = s
  /\ selectedDeviceId (getVideoDevices seen (Some devices) s)
     = match seen, List.filter isVideo devices with
       | [], d :: _ => mediaId d
       | _, _ => selectedDeviceId s
       end.
Proof.
  split; [done|]. unfold getVideoDevices.
  destruct (List.filter isVideo devices) as [|d ds]; simpl.
  - by destruct seen.
  - by destruct seen.
Qed.

(** X7.  When the closure saw no selection and the enumeration found a
    video input, the id that gets selected is the id of the first device
    in the list offered to the user, so the selection always names a
    listed device. *)
Theorem getVideoDevices_selects_listed seen devices s :
  seen = [] ->
  videoDevices (getVideoDevices seen (Some devices) s) <> [] ->
  head (deviceId <$> videoDevices (getVideoDevices seen (Some devices) s))
    = Some (selectedDeviceId (getVideoDevices seen (Some devices) s)).
Proof.
  intros -> Hfound. unfold getVideoDevices in *.
  destruct (toDeviceInfo <$> List.filter isVideo devices) as [|d ds] eqn:Hd;
    [done|]. done.
Qed.

End DeviceFacts.

Lemma getVideoDevices_selects_listed_witness :
  let devices := [Devices.mkMedia Devices.audioinput [97]%N [];
                  Devices.mkMedia Devices.videoinput [98]%N [];
                  Devices.mkMedia Devices.videoinput [99]%N [70]%N] in
  let after := Devices.getVideoDevices [] (Some devices)
                 (Devices.mkPicker [] []) in
  Devices.videoDevices after <> []
  /\ head (Devices.deviceId <$> Devices.videoDevices after)
     = Some (Devices.selectedDeviceId after).
Proof.
  intros devices after. split; [discriminate|].
  apply (getVideoDevices_selects_listed [] devices (Devices.mkPicker [] []));
    [reflexivity|discriminate].
Defined.

(** ** The password form *)

(** X8.  However the verification ends, the form is no longer busy and
    the typed password is untouched; the password is handed on exactly
    when the server answered with [ok], and it is the one that was sent;
    the form shows an error exactly when it was not handed on. *)
Theorem handleSubmit_outcome (v : PasswordAuth.Verdict) (f : PasswordAuth.Form) :
  let r := PasswordAuth.handleSubmit v f in
  PasswordAuth.isLoading r.1 = false
  /\ PasswordAuth.password r.1 = PasswordAuth.password f
  /\ (r.2 = Some (PasswordAuth.password f) <-> v = PasswordAuth.Answered true)
  /\ (r.2 = None <-> v <> PasswordAuth.Answered true)
  /\ (PasswordAuth.error r.1 = [] <-> v = PasswordAuth.Answered true).
Proof.
  destruct v as [[]|]; simpl;
    unfold PasswordAuth.invalidPassword, PasswordAuth.failedToAuthenticate;
    intuition (try discriminate; try congruence).
Qed.

(** ** More on the display loop *)

Section MoreSchedFacts.

Context {Img Opacity : Type}.
Variable opacity_one : Opacity.
Variable opacity_step : Opacity -> Opacity.
Variable opacity_pos : Opacity -> bool.
Variable onload : list Img -> Img -> list Img.

Local Abbreviation state := (Sched Img Opacity).
Local Abbreviation event := (Event Img).
Local Abbreviation effect := (Effect Img Opacity).
Local Abbreviation step1 := (step opacity_one opacity_step opacity_pos onload).
Local Abbreviation runs := (run opacity_one opacity_step opacity_pos onload).

Implicit Types (s : state) (e : event) (evs : list event).

Lemma swaps_app (o1 o2 : list effect) : swaps (o1 ++ o2) = swaps o1 + swaps o2.
Proof. unfold swaps. by rewrite omap_app, length_app. Qed.

Lemma swaps_overflowSkipped (q : list Img) :
  swaps (overflowSkipped q : list effect) = 0.
Proof. unfold overflowSkipped. by destruct (_ <? _). Qed.

Lemma swaps_completion c1 c2 :
  swaps ([SwapCanvases] ++ canvasEffects c1 2 ++ canvasEffects c2 1
           ++ [PopFrame] : list effect) = 1.
Proof. by destruct c1, c2. Qed.

Lemma step_swaps s e :
  (swaps (step1 s e).2 = 0
   /\ currentCanvas (step1 s e).1 = currentCanvas s
   /\ nextCanvas (step1 s e).1 = nextCanvas s)
  \/ (swaps (step1 s e).2 = 1
      /\ currentCanvas (step1 s e).1 = nextCanvas s
      /\ nextCanvas (step1 s e).1 = currentCanvas s).
Proof.
  destruct e as [img|now ctx|i now]; simpl.
  - by left.
  - left.
    destruct (displayNextFrame_outcome opacity_one now ctx s) as [|Ht|c f Ht Hf];
      simpl; rewrite ?swaps_app, ?swaps_overflowSkipped; done.
  - destruct (fade_outcome_spec opacity_step opacity_pos i now s)
      as [Hno|o c Ho|o Ho]; simpl; [by left..|].
    right. split; [apply swaps_completion|done].
Qed.

Lemma run_canvas_roles s evs :
  (currentCanvas (runs s evs).1, nextCanvas (runs s evs).1)
  = if Nat.even (swaps (runs s evs).2)
    then (currentCanvas s, nextCanvas s)
    else (nextCanvas s, currentCanvas s).
Proof.
  revert s. induction evs as [|e evs IH]; intros s; simpl; [done|].
  pose proof (step_swaps s e) as Hstep.
  destruct (step1 s e) as [s1 o1]. specialize (IH s1).
  destruct (runs s1 evs) as [s2 o2]. simpl in IH, Hstep |- *.
  rewrite IH, swaps_app. clear IH.
  destruct Hstep as [(-> & -> & ->)|(-> & -> & ->)]; [done|].
  change (1 + swaps o2) with (S (swaps o2)).
  rewrite Nat.even_succ, <- Nat.negb_even. by destruct (Nat.even (swaps o2)).
Qed.

(** X9.  The two canvases only ever trade places: after any run the
    current and the next canvas are the two of the mount, in the original
    roles after an even number of completed transitions and exchanged
    after an odd number. *)
Theorem canvas_roles_alternate t0 cur next evs :
  let r := runs (mount t0 cur next) evs in
  (currentCanvas r.1, nextCanvas r.1)
  = if Nat.even (swaps r.2) then (cur, next) else (next, cur).
Proof. apply (run_canvas_roles (mount t0 cur next)). Qed.

Lemma run_head_in_transition s evs (d : list Img) :
  (forall q img, onload q img = q ++ [img] \/ onload q img = q) ->
  in_step s ->
  (isTransitioning s = true ->
     frameQueue s <> [] /\ head (frameQueue s) = last d) ->
  isTransitioning (runs s evs).1 = true ->
  frameQueue (runs s evs).1 <> []
  /\ head (frameQueue (runs s evs).1) = last (d ++ displayed (runs s evs).2).
Proof.
  intros Hload. revert s d. induction evs as [|e evs IH]; intros s d Hs Hd; simpl.
  { rewrite app_nil_r. exact Hd. }
  pose proof (step_in_step opacity_one opacity_step opacity_pos onload s e Hs)
    as Hs1.
  destruct (step1 s e) as [s1 o1] eqn:Hstep. simpl in Hs1.
  specialize (IH s1 (d ++ displayed o1) Hs1).
  destruct (runs s1 evs) as [s2 o2]. simpl in IH |- *.
  rewrite displayed_app, app_assoc. apply IH. clear IH.
  destruct e as [img|now ctx|i now]; simpl in Hstep.
  - injection Hstep as <- <-. simpl. rewrite app_nil_r. intros Ht.
    destruct (Hd Ht) as [Hne Hhead].
    destruct (Hload (frameQueue s) img) as [-> | ->]; [|done].
    destruct (frameQueue s); [done|]. by split.
  - pose proof (displayNextFrame_outcome opacity_one now ctx s) as Hout.
    rewrite Hstep in Hout.
    inversion Hout as [|Ht|c f Ht Hf]; subst; simpl.
    + by rewrite app_nil_r.
    + done.
    + intros _. rewrite displayed_app, displayed_overflowSkipped. simpl.
      rewrite last_snoc. split; [|done]. by destruct (overflowSkip _).
  - pose proof (fade_outcome_spec opacity_step opacity_pos i now s) as Hout.
    rewrite Hstep in Hout.
    inversion Hout as [Hno|o c Ho|o Ho]; subst; simpl; rewrite ?app_nil_r; done.
Qed.

(** X10.  While a transition runs, the frame that was drawn for it is
    still the head of the queue, whatever was decoded in the meantime; so
    the [slice(1)] at the end of the transition removes the frame that was
    shown and no other. *)
Theorem transition_frame_at_head t0 cur next evs :
  (forall q img, onload q img = q ++ [img] \/ onload q img = q) ->
  let r := runs (mount t0 cur next) evs in
  isTransitioning r.1 = true ->
  frameQueue r.1 <> [] /\ head (frameQueue r.1) = last (displayed r.2).
Proof.
  intros Hload r Ht.
  apply (run_head_in_transition (mount t0 cur next) evs [] Hload);
    [apply in_step_mount|done|done].
Qed.

Lemma run_cons_fst s e evs : (runs s (e :: evs)).1 = (runs (step1 s e).1 evs).1.
Proof.
  change (runs s (e :: evs))
    with (let '(s1, o1) := step1 s e in
          let '(s2, o2) := runs s1 evs in (s2, o1 ++ o2)).
  destruct (step1 s e) as [s1 o1]. simpl. by destruct (runs s1 evs).
Qed.

(** X11.  A transition ends.  If the opacity stays positive for [n]
    steps and is not positive after them, then [n + 1] runs of the closure
    bring the scheduler back to idle with the head of the queue removed,
    the canvases exchanged and the time of the last run recorded. *)
Theorem transition_completes s o c n t :
  fades s = [o] -> currentCanvas s = Some c ->
  (forall m, m < n -> opacity_pos (Nat.iter m opacity_step o) = true) ->
  opacity_pos (Nat.iter n opacity_step o) = false ->
  (run opacity_one opacity_step opacity_pos onload s
     (replicate (S n) (Fade 0 t))).1
  = mkSched (drop 1 (frameQueue s)) false t (nextCanvas s) (currentCanvas s) [].
Proof.
  revert s o. induction n as [|n IH]; intros s o Hf Hc Hpos Hend.
  - simpl. unfold fade. rewrite Hf. simpl in *. by rewrite Hend.
  - change (replicate (S (S n)) (Fade 0 t))
      with (Fade 0 t :: replicate (S n) (Fade 0 t) : list event).
    rewrite run_cons_fst.
    pose proof (Hpos 0 ltac:(lia)) as H0. simpl in H0.
    assert ((step1 s (Fade 0 t)).1
            = mkSched (frameQueue s) (isTransitioning s)
                (lastTransitionTime s) (currentCanvas s) (nextCanvas s)
                [opacity_step o]) as ->.
    { simpl. unfold fade. rewrite Hf. simpl. by rewrite H0, Hc. }
    rewrite (IH _ (opacity_step o)); [done|done|exact Hc|..].
    + intros m Hm. rewrite <- Nat.iter_succ_r. apply Hpos. lia.
    + by rewrite <- Nat.iter_succ_r.
Qed.

End MoreSchedFacts.

Lemma transition_completes_witness :
  (run decimal_one decimal_step decimal_pos Main.onload
     (run decimal_one decimal_step decimal_pos Main.onload mounted
        [Decoded 7; Decoded 8; Tick 0 true]).1
     (replicate 21 (Fade 0 40))).1
  = mkSched [8] false 40 (Some SecondCanvas) (Some FirstCanvas) [].
Proof.
  apply (transition_completes decimal_one decimal_step decimal_pos Main.onload
           (run decimal_one decimal_step decimal_pos Main.onload mounted
              [Decoded 7; Decoded 8; Tick 0 true]).1
           100%Z FirstCanvas 20 40%Z).
  - reflexivity.
  - reflexivity.
  - intros m Hm. do 20 (destruct m as [|m]; [reflexivity|]). lia.
  - reflexivity.
Defined.

Lemma transition_frame_at_head_witness :
  let r := run decimal_one decimal_step decimal_pos Main.onload mounted
             [Decoded 7; Tick 0 true; Decoded 8; Fade 0 1] in
  head (frameQueue r.1) = Some 7 /\ displayed r.2 = [7].
Proof.
  split; [|reflexivity].
  apply (transition_frame_at_head decimal_one decimal_step decimal_pos
           Main.onload 0%Z (Some FirstCanvas) (Some SecondCanvas)
           [Decoded 7; Tick 0 true; Decoded 8; Fade 0 1]).
  - apply main_onload_appends.
  - reflexivity.
Defined.

(** In the revision with reconnection nothing is dropped at the tail. *)
Section MainQueue.

Context {Img Opacity : Type}.
Variable opacity_one : Opacity.
Variable opacity_step : Opacity -> Opacity.
Variable opacity_pos : Opacity -> bool.

Local Abbreviation main_run :=
  (run opacity_one opacity_step opacity_pos Main.onload).

Lemma drop_app_front (q arr : list Img) n :
  n <= length q -> drop n q ++ arr = drop n (q ++ arr).
Proof. intros Hn. by rewrite drop_app_le. Qed.

Lemma main_run_suffix (s : Sched Img Opacity) (evs : list (Event Img)) :
  exists k, frameQueue (main_run s evs).1 = drop k (frameQueue s ++ arrivals evs).
Proof.
  revert s. induction evs as [|e evs IH]; intros s; simpl.
  { exists 0. by rewrite app_nil_r. }
  destruct (step opacity_one opacity_step opacity_pos Main.onload s e)
    as [s1 o1] eqn:Hstep.
  destruct (IH s1) as [k Hk]. destruct (main_run s1 evs) as [s2 o2].
  simpl in Hk |- *. rewrite Hk. clear Hk IH.
  assert (forall n, frameQueue s1 = drop n (frameQueue s) ->
            arrivals (e :: evs) = arrivals evs ->
            exists k', drop k (frameQueue s1 ++ arrivals evs)
                       = drop k' (frameQueue s ++ arrivals (e :: evs))) as Hfront.
  { intros n Hn ->. destruct (decide (n <= length (frameQueue s))).
    - exists (n + k). rewrite Hn, drop_app_front by done. by rewrite drop_drop.
    - exists (length (frameQueue s) + k).
      rewrite Hn, (drop_ge (frameQueue s) n) by lia.
      rewrite <- drop_drop.
      rewrite <- (drop_app_front (frameQueue s) (arrivals evs)
                    (length (frameQueue s))) by lia.
      by rewrite drop_all. }
  destruct e as [img|now ctx|i now]; simpl in Hstep.
  - injection Hstep as <- <-. simpl. exists k.
    unfold Main.onload. by rewrite <- app_assoc.
  - pose proof (displayNextFrame_outcome opacity_one now ctx s) as Hout.
    rewrite Hstep in Hout.
    inversion Hout as [|Ht|c f Ht Hf]; subst.
    + by apply (Hfront 0).
    + destruct (overflowSkip_suffix (frameQueue s)) as [n Hn].
      by apply (Hfront n).
    + destruct (overflowSkip_suffix (frameQueue s)) as [n Hn].
      by apply (Hfront n).
  - pose proof (fade_outcome_spec opacity_step opacity_pos i now s) as Hout.
    rewrite Hstep in Hout.
    inversion Hout as [Hno|o c Ho|o Ho]; subst.
    + by apply (Hfront 0).
    + by apply (Hfront 0).
    + by apply (Hfront 1).
Qed.

(** X12.  In the revision with reconnection the queue is always a tail of
    the arrivals: frames leave it only at the front, so the newest decoded
    frames are never the ones that are lost. *)
Theorem main_queue_is_newest t0 cur next (evs : list (Event Img)) :
  exists k,
    frameQueue (main_run (mount t0 cur next) evs).1 = drop k (arrivals evs).
Proof. apply (main_run_suffix (mount t0 cur next)). Qed.

End MainQueue.

(** X21.  In the older revision the decode handler refuses a frame once
    [MAX_BUFFER_SIZE] are waiting, so after any interleaving of decodes,
    ticks of the display loop and fade steps the queue holds at most
    [MAX_BUFFER_SIZE] frames, and what the overflow skip would leave of it
    is at most half of that. *)
Theorem web_capacity_invariant {Img Opacity : Type} (opacity_one : Opacity)
    (opacity_step : Opacity -> Opacity) (opacity_pos : Opacity -> bool)
    t0 cur next (evs : list (Event Img)) :
  let q := frameQueue
             (run opacity_one opacity_step opacity_pos Web.onload
                (mount t0 cur next) evs).1 in
  length q <= MAX_BUFFER_SIZE
  /\ length (overflowSkip q) <= MAX_BUFFER_SIZE / 2.
Proof.
  intros q.
  assert (length q <= MAX_BUFFER_SIZE) as Hq.
  { apply web_run_bounded. simpl. unfold MAX_BUFFER_SIZE. lia. }
  split; [done|]. by apply overflowSkip_within_capacity.
Qed.

(** ** More on reconnection, recording and sending *)

(** X13.  The reconnection delay is never below
    [INITIAL_RECONNECT_DELAY] nor above [MAX_RECONNECT_DELAY], and it
    never shrinks from one close to the next. *)
Theorem reconnectDelay_bounds (k : nat) :
  (INITIAL_RECONNECT_DELAY <= Session.reconnectDelay k <= MAX_RECONNECT_DELAY)%Z
  /\ (Session.reconnectDelay k <= Session.reconnectDelay (S k))%Z.
Proof.
  unfold Session.reconnectDelay, INITIAL_RECONNECT_DELAY, MAX_RECONNECT_DELAY.
  assert (0 < 2 ^ Z.of_nat k)%Z by (apply Z.pow_pos_nonneg; lia).
  assert (2 ^ Z.of_nat k <= 2 ^ Z.of_nat (S k))%Z
    by (apply Z.pow_le_mono_r; lia).
  lia.
Qed.

(** X14.  One turn of the recording cycle.  When the interval fires, the
    recorder delivers the data of the segment that just ended and then its
    stop, the segment is uploaded exactly once and whole, with nothing of
    what was buffered before the interval, and the buffer is empty
    afterwards.  A segment without data is not uploaded at all. *)
Theorem segment_uploaded_once p i r size reply now :
  recorders p !! i = Some r -> truthy (seenPassword r) = true ->
  let turn := Audio.run p [Audio.RecordingInterval; Audio.DataAvailable size;
                           Audio.Stop i reply now] in
  audioChunks turn.1 = []
  /\ if 0 <? size
     then exists tail,
         turn.2 = [[]; []; [NewBlob [size]; PlayAudio [size];
                            Upload (seenPassword r) [size]] ++ tail]
         /\ (tail = [] \/ tail = [LogError])
     else turn.2 = [[]; []; []].
Proof.
  intros Hi Hpw. simpl. unfold Audio.ondataavailable. simpl.
  assert (forall was mic q, audioChunks (Audio.audioEffect was mic q)
                            = audioChunks q) as Heff.
  { intros was mic q. unfold Audio.audioEffect.
    destruct (eqb was (isAuthenticated q)); [done|].
    destruct (negb (isAuthenticated q)); [done|]. by destruct mic. }
  destruct (0 <? size); simpl; rewrite Hi.
  - unfold Audio.onstop, Audio.transcribe. simpl. rewrite Hpw. simpl.
    destruct reply as [|status body]; simpl.
    + rewrite Heff. split; [done|]. exists [LogError]. split; [done|by right].
    + destruct (status =? 401)%Z; simpl.
      * rewrite Heff. split; [done|]. exists []. split; [done|by left].
      * destruct body as [data_text|]; simpl.
        -- destruct (truthy data_text); simpl; rewrite Heff;
             (split; [reflexivity|]); exists []; (split; [reflexivity|by left]).
        -- rewrite Heff. split; [done|]. exists [LogError]. split; [done|by right].
  - unfold Audio.onstop. simpl. by rewrite Heff.
Qed.

Lemma segment_uploaded_once_witness :
  let p := (Audio.run Audio.initial
              [Audio.Authenticated [112; 119]%N true; Audio.DataAvailable 7]).1 in
  (recorders p !! 0 = Some (mkRender (Some [112; 119]%N) 0)
   /\ truthy (Some [112; 119]%N) = true)
  /\ audioChunks
       (Audio.run p [Audio.RecordingInterval; Audio.DataAvailable 100;
                     Audio.Stop 0 (Response 200 (Some (Some [104; 105]%N)))
                       10000]).1 = [].
Proof.
  split; [split; reflexivity|].
  apply (segment_uploaded_once
           (Audio.run Audio.initial
              [Audio.Authenticated [112; 119]%N true;
               Audio.DataAvailable 7]).1
           0 (mkRender (Some [112; 119]%N) 0) 100
           (Response 200 (Some (Some [104; 105]%N))) 10000);
    reflexivity.
Defined.

Lemma web_onstop_entry_witness :
  (WebAudio.onstop 0 (Response 200 (Some (Some [32; 104; 105; 32]%N))) 1000
     (setChunks [100] Audio.initial)).1
  = addTranscript 0 [104; 105]%N 1000 Audio.initial.
Proof.
  etrans.
  - apply (web_onstop_entry 0 200 [32; 104; 105; 32]%N 1000
             (setChunks [100] Audio.initial)); [discriminate|lia].
  - reflexivity.
Defined.

Lemma serial_spaced_witness :
  Outbound.spaced 0
    (Outbound.sent
       (Outbound.run Outbound.initial
          [Outbound.SendFrame 1000 true;
           Outbound.BlobReady 0 true (Some Outbound.OPEN);
           Outbound.BufferReady 0 (Some Outbound.OPEN) 1010;
           Outbound.SendFrame 1125 true;
           Outbound.SendFrame 1250 true;
           Outbound.BlobReady 0 true (Some Outbound.OPEN);
           Outbound.BufferReady 0 (Some Outbound.OPEN) 1260]).2).*1.
Proof.
  apply (serial_spaced
           [Outbound.SendFrame 1000 true;
            Outbound.BlobReady 0 true (Some Outbound.OPEN);
            Outbound.BufferReady 0 (Some Outbound.OPEN) 1010;
            Outbound.SendFrame 1125 true;
            Outbound.SendFrame 1250 true;
            Outbound.BlobReady 0 true (Some Outbound.OPEN);
            Outbound.BufferReady 0 (Some Outbound.OPEN) 1260]
           Outbound.initial).
  - apply fresh_initial.
  - simpl. repeat split.
Defined.

(** ** Reconnection in the older revision *)

Section WebRetryFacts.

Import WebRetry.
Local Open Scope Q_scope.

Lemma onclose_delay_bounds r :
  INITIAL_RETRY_DELAY <= retryDelay r ->
  INITIAL_RETRY_DELAY * BACKOFF_FACTOR <= (onclose r).2 <= MAX_RETRY_DELAY
  /\ INITIAL_RETRY_DELAY <= retryDelay (onclose r).1.
Proof.
  intros Hr. unfold onclose. simpl.
  assert (INITIAL_RETRY_DELAY * BACKOFF_FACTOR <= retryDelay r * BACKOFF_FACTOR)
    as Hmul by (apply Qmult_le_compat_r; [done|discriminate]).
  assert (INITIAL_RETRY_DELAY * BACKOFF_FACTOR
          <= Qmin (retryDelay r * BACKOFF_FACTOR) MAX_RETRY_DELAY) as Hlow
    by (apply Q.min_glb; [done|discriminate]).
  split; [split; [done|apply Q.le_min_r]|].
  apply Qle_trans with (INITIAL_RETRY_DELAY * BACKOFF_FACTOR);
    [discriminate|exact Hlow].
Qed.

Lemma web_retry_run_bounded r evs d :
  INITIAL_RETRY_DELAY <= retryDelay r ->
  In d (run r evs).2 ->
  INITIAL_RETRY_DELAY * BACKOFF_FACTOR <= d <= MAX_RETRY_DELAY.
Proof.
  revert r. induction evs as [|e evs IH]; intros r Hr; [intros []|].
  change (run r (e :: evs))
    with (let '(r1, o1) := step r e in
          let '(r2, o2) := run r1 evs in (r2, o1 ++ o2)).
  destruct e; unfold step.
  - specialize (IH (onopen r)). destruct (run (onopen r) evs) as [r2 o2].
    simpl in *. intros Hin. apply IH; [apply Qle_refl|done].
  - destruct (onclose_delay_bounds r Hr) as [Hd Hr1].
    destruct (onclose r) as [r1 d1]. simpl in Hd, Hr1.
    specialize (IH r1 Hr1). destruct (run r1 evs) as [r2 o2]. simpl in *.
    intros [<-|Hin]; [done|by apply IH].
Qed.

(** X15.  In the older revision every reconnection is scheduled between
    1.5 s and 30 s after the close, whatever the history of opens and
    closes; the initial delay itself is never used. *)
Theorem web_retry_delays_bounded evs d :
  In d (run initial evs).2 -> 1500 <= d <= 30000.
Proof.
  intros Hd. apply (web_retry_run_bounded initial evs d) in Hd.
  - destruct Hd as [Hlow Hhigh]. split; [|exact Hhigh].
    apply Qle_trans with (INITIAL_RETRY_DELAY * BACKOFF_FACTOR);
      [discriminate|exact Hlow].
  - apply Qle_refl.
Qed.

Lemma closes_capped k r :
  (8 <= k)%nat -> (onclose (closes k r)).2 = MAX_RETRY_DELAY.
Proof.
  intros Hk. replace k with ((k - 8) + 8)%nat by lia.
  induction (k - 8)%nat as [|n IH].
  - reflexivity.
  - change (onclose (closes (S n + 8) r)).2
      with (Qmin ((onclose (closes (n + 8) r)).2 * BACKOFF_FACTOR)
              MAX_RETRY_DELAY).
    rewrite IH. reflexivity.
Qed.

(** X16.  After an open the delays grow by half from close to close,
    1.5 s, 2.25 s, ... up to 25.6 s at the eighth close, and every close
    from the ninth on waits exactly 30 s. *)
Theorem web_retry_schedule k r :
  if (k <? 8)%nat
  then (onclose (closes k r)).2 == 1000 * (3 # 2) ^ (Z.of_nat k + 1)
  else (onclose (closes k r)).2 = 30000.
Proof.
  destruct (Nat.ltb_spec k 8) as [Hk|Hk].
  - do 8 (destruct k as [|k]; [vm_compute; reflexivity|]). lia.
  - by apply closes_capped.
Qed.

End WebRetryFacts.

Lemma web_retry_delays_bounded_witness :
  (1500 <= (WebRetry.onclose WebRetry.initial).2 <= 30000)%Q.
Proof.
  apply (web_retry_delays_bounded [WebRetry.Close]).
  left. reflexivity.
Defined.

(** ** Sockets, heartbeat and timers *)

Section LinkFacts.

Import Outbound Link.
Implicit Types (s : Link) (t : Timer) (ts : list Timer) (e : Event).

Lemma elem_of_remove t id ts : t ∈ remove id ts <-> t.1 <> id /\ t ∈ ts.
Proof.
  unfold remove. apply (list_elem_of_filter (fun t : Timer => t.1 <> id)).
Qed.

Lemma elem_of_clear t ref ts :
  t ∈ clear ref ts <-> t ∈ ts /\ forall n, ref = Some (S n) -> t.1 <> S n.
Proof.
  unfold clear. destruct ref as [[|n]|].
  - split; [intros H; split; [done|congruence]|by intros [H _]].
  - rewrite elem_of_remove. split.
    + intros [Hne Hin]. split; [done|]. intros m [= <-]. done.
    + intros [Hin Hne]. split; [by apply Hne|done].
  - split; [intros H; split; [done|congruence]|by intros [H _]].
Qed.

Lemma clear_sublist ref ts : clear ref ts `sublist_of` ts.
Proof.
  unfold clear. destruct ref as [[|n]|]; [done| |done]. apply sublist_filter.
Qed.

Lemma clearAll_sublist r ts : clearAll r ts `sublist_of` ts.
Proof.
  unfold clearAll. repeat (etrans; [apply clear_sublist|]). done.
Qed.

Lemma elem_of_clearAll t r ts :
  t ∈ clearAll r ts ->
  t ∈ ts
  /\ (forall n, reconnectTimeoutRef r = Some (S n) -> t.1 <> S n)
  /\ (forall n, healthCheckIntervalRef r = Some (S n) -> t.1 <> S n)
  /\ (forall n, pingIntervalRef r = Some (S n) -> t.1 <> S n)
  /\ (forall n, noUpdatesTimeoutRef r = Some (S n) -> t.1 <> S n).
Proof.
  unfold clearAll. rewrite !elem_of_clear. tauto.
Qed.

Lemma NoDup_ids_sublist ts ts' :
  ts' `sublist_of` ts -> NoDup ts.*1 -> NoDup ts'.*1.
Proof.
  intros Hsub Hnd. eapply sublist_NoDup; [exact Hnd|by apply fmap_sublist].
Qed.

(** After [connectWebSocket] cleared the refs, no heartbeat timer is left. *)
Lemma clearAll_no_heartbeat s t :
  tidy s -> t ∈ clearAll (refs s) (timers s) -> heartbeat t.2 = false.
Proof.
  intros Hs (Hin & _ & Hh & Hp & Hn)%elem_of_clearAll.
  pose proof (tidy_owned s Hs t Hin) as Hown.
  pose proof (tidy_ids s Hs t Hin) as Hid.
  destruct t as [id k]. unfold owned in Hown. simpl in *.
  destruct id as [|id]; [lia|].
  destruct k as [d|w|w|]; [done|..].
  - destruct Hown as [Href _]. by destruct (Hh id Href).
  - destruct Hown as [Href _]. by destruct (Hp id Href).
  - by destruct (Hn id Hown).
Qed.

Lemma close_lookup w ss v :
  close w ss !! v = Some CONNECTING -> ss !! v = Some CONNECTING /\ v <> w.
Proof.
  unfold close. destruct (ss !! w) as [[]|] eqn:Hw; intros Hv;
    try (split; [done|]; intros ->; congruence).
  - destruct (decide (v = w)) as [->|Hne].
    + rewrite list_lookup_insert_eq in Hv by (by eapply lookup_lt_Some). done.
    + by rewrite list_lookup_insert_ne in Hv.
  - destruct (decide (v = w)) as [->|Hne].
    + rewrite list_lookup_insert_eq in Hv by (by eapply lookup_lt_Some). done.
    + by rewrite list_lookup_insert_ne in Hv.
Qed.

Lemma close_length w ss : length (close w ss) = length ss.
Proof. unfold close. destruct (ss !! w) as [[]|]; by rewrite ?length_insert. Qed.

Lemma closeCurrent_connecting s v :
  tidy s -> closeCurrent s !! v = Some CONNECTING -> False.
Proof.
  intros Hs. unfold closeCurrent. destruct (socketRef s) as [w|] eqn:Hw.
  - intros [Hv Hne]%close_lookup.
    destruct (tidy_connecting s Hs v Hv) as [Href _]. congruence.
  - intros Hv. destruct (tidy_connecting s Hs v Hv) as [Href _]. congruence.
Qed.

Lemma closeCurrent_keeps_connecting s v :
  closeCurrent s !! v = Some CONNECTING -> sockets s !! v = Some CONNECTING.
Proof.
  unfold closeCurrent. destruct (socketRef s); [|done].
  by intros [Hv _]%close_lookup.
Qed.

Ltac listed H :=
  repeat (apply elem_of_cons in H as [->|H]; [simpl; try lia; try done|]);
  try (by apply elem_of_nil in H).

Lemma tidy_connect password s : tidy s -> tidy (connectWebSocket password s).
Proof.
  intros Hs. unfold connectWebSocket. destruct password; [|done]. simpl.
  split; simpl.
  - apply Hs.
  - intros t [Hin _]%elem_of_clearAll. by apply (tidy_ids s Hs).
  - eapply NoDup_ids_sublist; [apply clearAll_sublist|apply (tidy_once s Hs)].
  - intros t Hin. pose proof (clearAll_no_heartbeat s t Hs Hin) as Hh.
    unfold owned. by destruct (t.2).
  - intros w Hw. split.
    + apply lookup_snoc_Some in Hw as [[_ Hw]|[-> _]]; [|done].
      exfalso. by eapply closeCurrent_connecting.
    + intros t Hin. by eapply clearAll_no_heartbeat.
Qed.

Lemma tidy_withSockets ss s :
  tidy s ->
  (forall w, ss !! w = Some CONNECTING -> sockets s !! w = Some CONNECTING) ->
  tidy (withSockets ss s).
Proof.
  intros Hs Hss. split; simpl; try apply Hs.
  intros w Hw. by apply (tidy_connecting s Hs), Hss.
Qed.

Lemma tidy_withTimers ts s :
  tidy s -> ts `sublist_of` timers s -> tidy (withTimers ts s).
Proof.
  intros Hs Hsub.
  assert (forall t, t ∈ ts -> t ∈ timers s) as Hin
    by (intros t Ht; by eapply elem_of_sublist).
  split; simpl.
  - apply Hs.
  - intros t Ht. by apply (tidy_ids s Hs), Hin.
  - by eapply NoDup_ids_sublist; [|apply (tidy_once s Hs)].
  - intros t Ht. apply (tidy_owned s Hs), Hin, Ht.
  - intros w Hw. destruct (tidy_connecting s Hs w Hw) as [Href Hnone].
    split; [done|]. intros t Ht. by apply Hnone, Hin.
Qed.

Lemma insert_not_connecting w st (ss : list ReadyState) v :
  st <> CONNECTING ->
  <[w := st]> ss !! v = Some CONNECTING -> ss !! v = Some CONNECTING /\ v <> w.
Proof.
  intros Hst Hv. destruct (decide (v = w)) as [->|Hne].
  - destruct (decide (w < length ss)).
    + rewrite list_lookup_insert_eq in Hv by done. congruence.
    + rewrite list_insert_ge in Hv by lia. apply lookup_lt_Some in Hv. lia.
  - by rewrite list_lookup_insert_ne in Hv.
Qed.

Lemma tidy_onopen w s :
  tidy s -> sockets s !! w = Some CONNECTING ->
  tidy (onopen w (withSockets (<[w := OPEN]> (sockets s)) s)).1.
Proof.
  intros Hs Hw. destruct (tidy_connecting s Hs w Hw) as [Href Hnone].
  pose proof (tidy_next s Hs) as Hnext.
  split; simpl.
  - lia.
  - intros t [Hin|Hin]%elem_of_app.
    + pose proof (tidy_ids s Hs t Hin). lia.
    + listed Hin.
  - rewrite fmap_app. apply NoDup_app. split; [apply (tidy_once s Hs)|]. split.
    + intros id Hid Hnew. apply list_elem_of_fmap in Hid as (t & -> & Hin).
      pose proof (tidy_ids s Hs t Hin). simpl in Hnew.
      repeat (apply elem_of_cons in Hnew as [Heq|Hnew]; [lia|]).
      by apply elem_of_nil in Hnew.
    + simpl. repeat (apply NoDup_cons; split; [|]);
        rewrite ?elem_of_cons, ?elem_of_nil; try lia. apply NoDup_nil_2.
  - intros t [Hin|Hin]%elem_of_app.
    + pose proof (Hnone t Hin) as Hh. unfold owned. by destruct (t.2).
    + unfold owned. listed Hin.
  - intros v [Hv Hne]%insert_not_connecting; [|done].
    destruct (tidy_connecting s Hs v Hv) as [Hrefv _]. congruence.
Qed.

Lemma tidy_onclose s : tidy s -> tidy (onclose s).1.
Proof.
  intros Hs. pose proof (tidy_next s Hs) as Hnext.
  unfold onclose. destruct (_ <=? _)%Z; simpl.
  - split; simpl.
    + lia.
    + intros t [Hin|Hin]%elem_of_app.
      * pose proof (tidy_ids s Hs t Hin). lia.
      * apply list_elem_of_singleton in Hin as ->. simpl. lia.
    + rewrite fmap_app. apply NoDup_app. split; [apply (tidy_once s Hs)|]. split.
      * intros id Hid Hnew. apply list_elem_of_fmap in Hid as (t & -> & Hin).
        pose proof (tidy_ids s Hs t Hin). simpl in Hnew.
        apply list_elem_of_singleton in Hnew. lia.
      * apply NoDup_singleton.
    + intros t [Hin|Hin]%elem_of_app.
      * pose proof (tidy_owned s Hs t Hin) as Hown. unfold owned in *.
        by destruct (t.2).
      * by apply list_elem_of_singleton in Hin as ->.
    + intros w Hw. destruct (tidy_connecting s Hs w Hw) as [Href Hnone].
      split; [done|]. intros t [Hin|Hin]%elem_of_app; [by apply Hnone|].
      by apply list_elem_of_singleton in Hin as ->.
  - split; simpl; apply Hs.
Qed.

Lemma close_keeps_connecting w ss v :
  close w ss !! v = Some CONNECTING -> ss !! v = Some CONNECTING.
Proof. by intros [Hv _]%close_lookup. Qed.

Lemma tidy_fire id k now s : tidy s -> tidy (fire id k now s).1.
Proof.
  intros Hs. destruct k as [d|w|w|]; simpl.
  - apply tidy_connect, tidy_withTimers; [done|]. apply sublist_filter.
  - destruct (_ <? _)%Z; simpl; [|done].
    apply tidy_withSockets; [done|]. intros v. apply close_keeps_connecting.
  - by destruct (sockets s !! w) as [[]|].
  - pose proof (tidy_withTimers (remove id (timers s)) s Hs
                  (sublist_filter _ _)) as Ht.
    split; simpl; apply Ht.
Qed.

Lemma tidy_step s e : tidy s -> tidy (step s e).1.
Proof.
  intros Hs. unfold step. destruct (reloaded s); [done|].
  destruct e as [password|w|w|now|t now|id now| |]; simpl.
  - by apply tidy_connect.
  - destruct (sockets s !! w) as [[]|] eqn:Hw; try done.
    by apply tidy_onopen.
  - destruct (sockets s !! w) as [[]|] eqn:Hw; try done;
      apply tidy_onclose, tidy_withSockets; try done;
      intros v [Hv _]%insert_not_connecting; done.
  - split; simpl; apply Hs.
  - unfold ontext. destruct t as [|[type|]]; try done.
    destruct (decide _); [|done]. split; simpl; apply Hs.
  - destruct (armed id (timers s)); [|done]. by apply tidy_fire.
  - apply tidy_withSockets; [done|]. apply closeCurrent_keeps_connecting.
  - apply tidy_withTimers.
    + apply tidy_withSockets; [done|]. apply closeCurrent_keeps_connecting.
    + apply clearAll_sublist.
Qed.

Lemma tidy_initial (start : Z) : tidy (initial start).
Proof.
  split; simpl.
  - lia.
  - intros t Ht. by apply elem_of_nil in Ht.
  - apply NoDup_nil_2.
  - intros t Ht. by apply elem_of_nil in Ht.
  - intros w Hw. by rewrite lookup_nil in Hw.
Qed.

Lemma tidy_run s evs : tidy s -> tidy (run s evs).1.
Proof.
  revert s. induction evs as [|e evs IH]; intros s Hs; simpl; [done|].
  pose proof (tidy_step s e Hs) as H1.
  destruct (step s e) as [s1 o1]. specialize (IH s1 H1).
  by destruct (run s1 evs).
Qed.

(** X17.  Heartbeat timers do not pile up over reconnections.  At any
    moment at most one health check, one ping interval and one no-update
    timeout are armed, and the health check and the ping that are armed
    belong to the socket the component currently holds. *)
Theorem heartbeat_timers_single (start : Z) evs t1 t2 :
  let s := (run (initial start) evs).1 in
  t1 ∈ timers s -> t2 ∈ timers s ->
  heartbeat t1.2 = true -> sameKind t1.2 t2.2 = true ->
  t1 = t2
  /\ forall w, t1.2 = HealthCheck w \/ t1.2 = Ping w -> socketRef s = Some w.
Proof.
  intros s H1 H2 Hh Hk.
  assert (tidy s) as Hs by apply tidy_run, tidy_initial.
  pose proof (tidy_owned s Hs t1 H1) as Ho1.
  pose proof (tidy_owned s Hs t2 H2) as Ho2.
  destruct t1 as [id1 k1], t2 as [id2 k2]. unfold owned in *. simpl in *.
  destruct k1 as [d1|w1|w1|], k2 as [d2|w2|w2|]; try done.
  - destruct Ho1 as [Hr1 Hw1], Ho2 as [Hr2 Hw2].
    split; [congruence|]. intros w [[= <-]|[=]]. done.
  - destruct Ho1 as [Hr1 Hw1], Ho2 as [Hr2 Hw2].
    split; [congruence|]. intros w [[=]|[= <-]]. done.
  - split; [congruence|]. by intros w [[=]|[=]].
Qed.

Lemma armed_elem id k ts : armed id ts = Some k -> (id, k) ∈ ts.
Proof.
  unfold armed. destruct (List.find (fun t : Timer => t.1 =? id) ts)
    as [[id' k']|] eqn:Hfind; [|done].
  intros [= <-]. apply List.find_some in Hfind as [Hin Heq].
  apply Nat.eqb_eq in Heq. simpl in Heq. subst. by apply list_elem_of_In.
Qed.

Lemma elem_armed id k ts : NoDup ts.*1 -> (id, k) ∈ ts -> armed id ts = Some k.
Proof.
  intros Hnd Hin. unfold armed.
  destruct (List.find (fun t : Timer => t.1 =? id) ts)
    as [[id' k']|] eqn:Hfind.
  - apply List.find_some in Hfind as [Hin' Heq].
    apply Nat.eqb_eq in Heq. simpl in Heq. subst id'.
    apply list_elem_of_In in Hin'. simpl. f_equal.
    apply list_elem_of_lookup in Hin as [i Hi].
    apply list_elem_of_lookup in Hin' as [j Hj].
    unfold Timer in *.
    assert (i = j) as ->.
    { apply (NoDup_lookup ts.*1 i j id Hnd); rewrite list_lookup_fmap.
      - by rewrite Hi.
      - by rewrite Hj. }
    rewrite Hi in Hj. by injection Hj.
  - exfalso. apply list_elem_of_In in Hin.
    pose proof (List.find_none _ _ Hfind _ Hin) as Hne. simpl in Hne.
    by rewrite Nat.eqb_refl in Hne.
Qed.

(** X18.  The watchdog.  When the health check of an open socket runs
    more than [HEALTH_CHECK_INTERVAL] after the last frame or pong, that
    run itself calls [ws.close()]: the socket goes from open to closing
    and nothing else changes.  The close that follows counts one more
    attempt and arms a reconnection with the delay of the attempt count;
    the page is not reloaded. *)
Theorem watchdog_forces_reconnect (start : Z) evs w id now :
  let s := (run (initial start) evs).1 in
  reloaded s = false -> sockets s !! w = Some OPEN ->
  (id, HealthCheck w) ∈ timers s ->
  (Z.of_nat (reconnectAttempts s) < MAX_RECONNECT_ATTEMPTS)%Z ->
  (HEALTH_CHECK_INTERVAL < now - lastFrameTime s)%Z ->
  let r := run s [Fire id now; Closed w] in
  step s (Fire id now) = (withSockets (<[w := CLOSING]> (sockets s)) s, [])
  /\ sockets (step s (Fire id now)).1 !! w = Some CLOSING
  /\ sockets r.1 !! w = Some CLOSED
  /\ reconnectAttempts r.1 = S (reconnectAttempts s)
  /\ (nextTimer s, Reconnect (Session.reconnectDelay (reconnectAttempts s)))
       ∈ timers r.1
  /\ reloaded r.1 = false /\ r.2 = [].
Proof.
  intros s Hlive Hw Hin Hatt Hstale.
  assert (tidy s) as Hs by apply tidy_run, tidy_initial.
  clearbody s.
  pose proof (elem_armed id _ _ (tidy_once s Hs) Hin) as Harmed.
  assert (w < length (sockets s)) as Hlen by (by eapply lookup_lt_Some).
  assert (step s (Fire id now)
          = (withSockets (<[w := CLOSING]> (sockets s)) s, [])) as H1.
  { unfold step. rewrite Hlive, Harmed. simpl.
    destruct (Z.ltb_spec HEALTH_CHECK_INTERVAL (now - lastFrameTime s)); [|lia].
    unfold close. by rewrite Hw. }
  assert (step (withSockets (<[w := CLOSING]> (sockets s)) s) (Closed w)
          = onclose (withSockets
                       (<[w := CLOSED]> (<[w := CLOSING]> (sockets s)))
                       (withSockets (<[w := CLOSING]> (sockets s)) s))) as H2.
  { unfold step. simpl. rewrite Hlive.
    by rewrite list_lookup_insert_eq by done. }
  split; [exact H1|].
  split; [rewrite H1; simpl; by apply list_lookup_insert_eq|].
  cbn [run]. rewrite H1, H2. unfold onclose. simpl.
  destruct (Z.leb_spec (Z.of_nat (S (reconnectAttempts s)))
              MAX_RECONNECT_ATTEMPTS); [|lia].
  simpl. rewrite list_lookup_insert_eq by (by rewrite length_insert).
  repeat split; try done. apply elem_of_app. right. by left.
Qed.

(** X19.  A decoded frame or a pong puts the watchdog off: a health check
    that runs no later than [HEALTH_CHECK_INTERVAL] after it does nothing
    at all.  Any other text message leaves the time of the last frame as
    it was. *)
Theorem traffic_defers_watchdog s e seen id w now :
  e = FrameDecoded seen \/ e = TextMessage (Typed (Some pong)) seen ->
  reloaded s = false -> armed id (timers s) = Some (HealthCheck w) ->
  (now - seen <= HEALTH_CHECK_INTERVAL)%Z ->
  run s [e; Fire id now] = (onframe seen s, [])
  /\ forall other, other <> Typed (Some pong) ->
       step s (TextMessage other seen) = (s, []).
Proof.
  intros He Hlive Harmed Hfresh. split.
  - assert (step s e = (onframe seen s, [])) as Hstep.
    { unfold step. rewrite Hlive. destruct He as [-> | ->]; [done|].
      simpl. by destruct (decide (pong = pong)). }
    simpl run. rewrite Hstep. unfold step. simpl. rewrite Hlive, Harmed. simpl.
    by destruct (Z.ltb_spec HEALTH_CHECK_INTERVAL (now - seen)); [lia|].
  - intros other Hother. unfold step. rewrite Hlive. simpl.
    destruct other as [|[type|]]; try done.
    simpl. destruct (decide (type = pong)) as [->|]; done.
Qed.

Lemma traffic_run s evs :
  Forall (fun e => traffic e = true) evs ->
  exists seen, run s evs = (onframe seen s, []).
Proof.
  intros Hevs. revert s. induction Hevs as [|e evs He Hevs IH]; intros s.
  - exists (lastFrameTime s). by destruct s.
  - assert (exists seen, step s e = (onframe seen s, [])) as [seen Hstep].
    { unfold step. destruct (reloaded s) eqn:Hr.
      - exists (lastFrameTime s). by destruct s.
      - destruct e as [| | |now|t now| | |]; try done.
        + by exists now.
        + unfold ontext. destruct t as [|[type|]];
            try (exists (lastFrameTime s); by destruct s).
          destruct (decide _); [by exists now|].
          exists (lastFrameTime s). by destruct s. }
    simpl. rewrite Hstep. destruct (IH (onframe seen s)) as [seen' ->].
    by exists seen'.
Qed.

(** X20.  The no-update timeout pays no attention to updates.  Frames and
    text messages neither clear it nor arm it again, so when it fires
    after any amount of such traffic the page is reloaded. *)
Theorem no_updates_ignores_traffic s evs id now :
  reloaded s = false -> armed id (timers s) = Some NoUpdates ->
  Forall (fun e => traffic e = true) evs ->
  let r := run s (evs ++ [Fire id now]) in
  reloaded r.1 = true /\ r.2 = [Reload].
Proof.
  intros Hlive Harmed Hevs.
  destruct (traffic_run s evs Hevs) as [seen Hrun].
  assert (forall evs2, run s (evs ++ evs2)
            = let '(s1, o1) := run s evs in
              let '(s2, o2) := run s1 evs2 in (s2, o1 ++ o2)) as Happ.
  { clear. revert s. induction evs as [|e evs IH]; intros s evs2; simpl.
    - by destruct (run s evs2).
    - destruct (step s e) as [s1 o1]. rewrite IH.
      destruct (run s1 evs) as [s2 o2]. destruct (run s2 evs2) as [s3 o3].
      by rewrite app_assoc. }
  simpl. rewrite Happ, Hrun. simpl. unfold step. simpl.
  rewrite Hlive, Harmed. done.
Qed.

End LinkFacts.

Lemma heartbeat_timers_single_witness :
  let s := (Link.run (Link.initial 0)
              [Link.Connect true; Link.Opened 0; Link.Closed 0;
               Link.Fire 4 2000; Link.Opened 1]).1 in
  Link.timers s = [(5, Link.HealthCheck 1); (6, Link.Ping 1); (7, Link.NoUpdates)]
  /\ Link.socketRef s = Some 1.
Proof.
  split; [reflexivity|].
  apply (heartbeat_timers_single 0
           [Link.Connect true; Link.Opened 0; Link.Closed 0;
            Link.Fire 4 2000; Link.Opened 1]
           (5, Link.HealthCheck 1) (5, Link.HealthCheck 1)).
  - vm_compute. left.
  - vm_compute. left.
  - reflexivity.
  - reflexivity.
  - by left.
Defined.

Lemma watchdog_forces_reconnect_witness :
  let s := (Link.run (Link.initial 0) [Link.Connect true; Link.Opened 0]).1 in
  (Link.sockets s !! 0 = Some Outbound.OPEN /\ Link.lastFrameTime s = 0%Z
   /\ Link.reconnectAttempts s = 0)
  /\ Link.sockets (Link.step s (Link.Fire 1 30001)).1 !! 0
     = Some Outbound.CLOSING
  /\ (4, Link.Reconnect 1000)
       ∈ Link.timers (Link.run s [Link.Fire 1 30001; Link.Closed 0]).1.
Proof.
  split; [repeat split; reflexivity|].
  pose proof (watchdog_forces_reconnect 0 [Link.Connect true; Link.Opened 0]
                0 1 30001%Z) as H.
  destruct H as (_ & Hclosing & _ & _ & Harmed & _).
  - reflexivity.
  - reflexivity.
  - vm_compute. left.
  - vm_compute. reflexivity.
  - vm_compute. reflexivity.
  - split; [exact Hclosing|exact Harmed].
Defined.

Lemma traffic_defers_watchdog_witness :
  let s := (Link.run (Link.initial 0) [Link.Connect true; Link.Opened 0]).1 in
  Link.run s [Link.TextMessage (Link.Typed (Some Link.pong)) 29000;
              Link.Fire 1 59000]
  = (Link.onframe 29000 s, []).
Proof.
  apply (traffic_defers_watchdog
           (Link.run (Link.initial 0) [Link.Connect true; Link.Opened 0]).1
           (Link.TextMessage (Link.Typed (Some Link.pong)) 29000)
           29000%Z 1 0 59000%Z).
  - by right.
  - reflexivity.
  - reflexivity.
  - vm_compute. discriminate.
Defined.

Lemma no_updates_ignores_traffic_witness :
  let s := (Link.run (Link.initial 0) [Link.Connect true; Link.Opened 0]).1 in
  Link.reloaded
    (Link.run s ([Link.FrameDecoded 100000; Link.FrameDecoded 200000;
                  Link.FrameDecoded 299999] ++ [Link.Fire 3 300000])).1 = true.
Proof.
  apply (no_updates_ignores_traffic
           (Link.run (Link.initial 0) [Link.Connect true; Link.Opened 0]).1
           [Link.FrameDecoded 100000; Link.FrameDecoded 200000;
            Link.FrameDecoded 299999] 3 300000%Z).
  - reflexivity.
  - reflexivity.
  - repeat constructor.
Defined.
